(** * Referral-tracking backend (server/index.js): a shallow embedding

    The program is an Express application over one MySQL table.  Each
    route handler validates its request, sends one SQL statement on the
    shared connection and shapes the response from the outcome.

    The embedding follows the file top to bottom:
    - JavaScript strings, truthiness and the two regular expression
      literals of the create handler;
    - the [referrals] table as declared by [createTablesQuery], and what
      the server does with each of the five statements the handlers send;
    - the five handlers, as functions from a request and the connection
      to a response and the connection afterwards;
    - the properties of the handlers. *)

From Stdlib Require Import ZArith NArith List Bool Lia String Ascii Sorted Permutation.
From Stdlib Require Import DecimalString.
From stdpp Require Import gmap strings sorting.
Import ListNotations.

Set Default Proof Using "Type".
Local Open Scope Z_scope.

(** ** JavaScript strings *)

(** A string value is the sequence of its characters, each given by its
    code.  The patterns of this program only look at characters of the
    Basic Multilingual Plane (white space, digits, [@] and [.]); a
    character outside it is a non-white-space non-digit character, whether
    it is read as one character or as a surrogate pair. *)
Abbreviation jstring := (list N).

(** A source literal. *)
Definition lit (s : string) : jstring :=
  List.map N_of_ascii (list_ascii_of_string s).

Definition jstring_eqb (a b : jstring) : bool :=
  bool_decide (a = b).

(** [!x] for a value that is undefined (an absent key) or a string: the
    falsy ones are undefined and the empty string. *)
Definition falsy (x : option jstring) : bool :=
  match x with
  | None => true
  | Some [] => true
  | Some (_ :: _) => false
  end.

(** ** Regular expressions *)

Module Regex.

(** The character classes the two literals use. *)
Inductive atom : Type :=
| Chr (c : N)      (* a literal character *)
| Digit            (* \d *)
| NonSpace.        (* \S *)

(** ECMAScript [\s]: WhiteSpace and LineTerminator code points. *)
Definition is_space (c : N) : bool :=
  ((9 <=? c) && (c <=? 13) ||
   (c =? 32) || (c =? 160) || (c =? 5760) ||
   (8192 <=? c) && (c <=? 8202) ||
   (c =? 8232) || (c =? 8233) || (c =? 8239) || (c =? 8287) ||
   (c =? 12288) || (c =? 65279))%N.

(** ECMAScript [\d] (no unicode flag): the ten ASCII digits. *)
Definition is_digit (c : N) : bool :=
  ((48 <=? c) && (c <=? 57))%N.

Definition atom_accepts (a : atom) (c : N) : bool :=
  match a with
  | Chr d => (c =? d)%N
  | Digit => is_digit c
  | NonSpace => negb (is_space c)
  end.

Inductive re : Type :=
| Void
| Eps
| Atom (a : atom)
| Seq (r1 r2 : re)
| Alt (r1 r2 : re)
| Star (r : re).

(** [r+] and [r{n}]. *)
Definition Plus (r : re) : re := Seq r (Star r).

Fixpoint Repeat (n : nat) (r : re) : re :=
  match n with
  | O => Eps
  | S n' => Seq r (Repeat n' r)
  end.

(** The words of a pattern. *)
Inductive matches : re -> jstring -> Prop :=
| MEps : matches Eps []
| MAtom a c : atom_accepts a c = true -> matches (Atom a) [c]
| MSeq r1 r2 s1 s2 :
    matches r1 s1 -> matches r2 s2 -> matches (Seq r1 r2) (s1 ++ s2)
| MAltL r1 r2 s : matches r1 s -> matches (Alt r1 r2) s
| MAltR r1 r2 s : matches r2 s -> matches (Alt r1 r2) s
| MStarNil r : matches (Star r) []
| MStarApp r s1 s2 :
    matches r s1 -> matches (Star r) s2 -> matches (Star r) (s1 ++ s2).

(** Matching by derivatives. *)
Fixpoint nullable (r : re) : bool :=
  match r with
  | Void => false
  | Eps => true
  | Atom _ => false
  | Seq r1 r2 => nullable r1 && nullable r2
  | Alt r1 r2 => nullable r1 || nullable r2
  | Star _ => true
  end.

Fixpoint deriv (c : N) (r : re) : re :=
  match r with
  | Void => Void
  | Eps => Void
  | Atom a => if atom_accepts a c then Eps else Void
  | Seq r1 r2 =>
      if nullable r1
      then Alt (Seq (deriv c r1) r2) (deriv c r2)
      else Seq (deriv c r1) r2
  | Alt r1 r2 => Alt (deriv c r1) (deriv c r2)
  | Star r1 => Seq (deriv c r1) (Star r1)
  end.

(** The whole of [s] is a word of [r]. *)
Fixpoint full_match (r : re) (s : jstring) : bool :=
  match s with
  | [] => nullable r
  | c :: s' => full_match (deriv c r) s'
  end.

(** Some prefix of [s] is a word of [r]. *)
Fixpoint prefix_match (r : re) (s : jstring) : bool :=
  nullable r ||
  match s with
  | [] => false
  | c :: s' => prefix_match (deriv c r) s'
  end.

(** Some suffix of [s] is a word of [r]. *)
Fixpoint suffix_match (r : re) (s : jstring) : bool :=
  full_match r s ||
  match s with
  | [] => false
  | _ :: s' => suffix_match r s'
  end.

(** Some substring of [s] is a word of [r]. *)
Fixpoint search (r : re) (s : jstring) : bool :=
  prefix_match r s ||
  match s with
  | [] => false
  | _ :: s' => search r s'
  end.

(** A regular expression literal: its pattern, and whether it opens with
    [^] and closes with [$] (no flags, so both anchor to the ends of the
    input). *)
Record regex : Type := mkRegex {
  anchor_start : bool;
  pattern : re;
  anchor_end : bool
}.

(** [RegExp.prototype.test] on a string. *)
Definition test (x : regex) (s : jstring) : bool :=
  match anchor_start x, anchor_end x with
  | true, true => full_match (pattern x) s
  | true, false => prefix_match (pattern x) s
  | false, true => suffix_match (pattern x) s
  | false, false => search (pattern x) s
  end.

End Regex.

Import Regex.

(** [const emailRegex = /\S+@\S+\.\S+/;] *)
Definition emailRegex : regex :=
  mkRegex false
    (Seq (Plus (Atom NonSpace))
      (Seq (Atom (Chr 64))
        (Seq (Plus (Atom NonSpace))
          (Seq (Atom (Chr 46))
            (Plus (Atom NonSpace))))))
    false.

(** [const phoneRegex = /^\d{10}$/;] *)
Definition phoneRegex : regex :=
  mkRegex true (Repeat 10 (Atom Digit)) true.

(** ** The referrals table *)

(** One row of [referrals], column by column as [createTablesQuery]
    declares them.  The text columns are NOT NULL; [status] is not, so it
    holds NULL or the literal of an ENUM member.  The two TIMESTAMP
    columns hold seconds. *)
Record referral : Type := mkReferral {
  id : Z;
  referrer_name : jstring;
  referrer_email : jstring;
  referrer_phone : jstring;
  referee_name : jstring;
  referee_email : jstring;
  referee_phone : jstring;
  course : jstring;
  status : option jstring;
  created_at : Z;
  updated_at : Z
}.

(** The table: its rows in primary-key order and the AUTO_INCREMENT
    counter. *)
Record table : Type := mkTable {
  rows : list referral;
  auto_increment : Z
}.

Definition empty_table : table := mkTable [] 1.

(** [status ENUM('pending', 'contacted', 'enrolled', 'completed')] *)
Definition status_enum : list jstring :=
  [lit "pending"; lit "contacted"; lit "enrolled"; lit "completed"].

(** [id INT]: the largest value the column holds. *)
Definition INT_MAX : Z := 2147483647.

(** Storing [s] in a VARCHAR(n) column under strict SQL mode (the server
    default), in a character set that holds every character (utf8mb4):
    a value that fits is stored as it is; spaces beyond the width are cut
    off; any other character beyond the width is the error "Data too long
    for column". *)
Definition varchar (n : nat) (s : jstring) : option jstring :=
  if (length s <=? n)%nat then Some s
  else if forallb (N.eqb 32) (skipn n s) then Some (firstn n s)
  else None.

(** A bound parameter for a [VARCHAR(n) NOT NULL] column; undefined is
    sent as NULL, which the column refuses. *)
Definition varchar_not_null (n : nat) (x : option jstring) : option jstring :=
  match x with
  | None => None
  | Some s => varchar n s
  end.

(** [ORDER BY created_at DESC], as one result the statement may give:
    latest first, rows of one [created_at] in table order.  The
    statement itself leaves the order among such rows open
    ([order_by_promise] below). *)
Fixpoint insert_desc (r : referral) (l : list referral) : list referral :=
  match l with
  | [] => [r]
  | x :: l' =>
      if created_at x <=? created_at r then r :: l
      else x :: insert_desc r l'
  end.

Definition order_by_created_at_desc (l : list referral) : list referral :=
  fold_right insert_desc [] l.

(** [SUM(...)] over the rows of a group: NULL when there is no row. *)
Definition sql_sum (l : list Z) : option Z :=
  match l with
  | [] => None
  | _ :: _ => Some (fold_right Z.add 0 l)
  end.

(** [CASE WHEN status = 'x' THEN 1 ELSE 0 END]; a NULL status compares
    to nothing. *)
Definition case_status (x : jstring) (r : referral) : Z :=
  match status r with
  | Some s => if jstring_eqb s x then 1 else 0
  | None => 0
  end.

(** How the server reads the text bound to [WHERE id = ?] against the INT
    key: as an integer; as a number that no key equals (a fraction); or
    not as a number at all, which strict SQL mode refuses in an UPDATE
    ("Truncated incorrect DOUBLE value"). *)
Inductive key_reading : Type :=
| Key (i : Z)
| NoKey
| Refused.

(** The statements the handlers send, with their bound parameters; the
    id of the UPDATE stands as the server reads it. *)
Inductive statement : Type :=
| SelectAll
    (* SELECT * FROM referrals ORDER BY created_at DESC *)
| SelectByReferrer (email : jstring)
    (* SELECT * FROM referrals WHERE referrer_email = ?
       ORDER BY created_at DESC *)
| InsertReferral
    (rname remail rphone ename eemail ephone crs : option jstring)
    (* INSERT INTO referrals (referrer_name, ..., course)
       VALUES (?, ?, ?, ?, ?, ?, ?) *)
| UpdateStatus (st : option jstring) (k : key_reading)
    (* UPDATE referrals SET status = ? WHERE id = ? *)
| SelectStatistics.
    (* SELECT COUNT( * ) as total_referrals, SUM(CASE ...) ... *)

(** A DECIMAL value as the driver hands it to JavaScript: the text of its
    decimal digits. *)
Definition decimal_text (z : Z) : jstring :=
  lit (NilZero.string_of_int (Z.to_int z)).

(** What the callback of [db.query] receives when [err] is null.  In the
    row of the statistics the COUNT is a number; each SUM is a DECIMAL,
    which arrives as null or as a string. *)
Inductive results : Type :=
| RowSet (rs : list referral)
| ResultHeader (insertId affectedRows : Z)
| StatisticsRow (total_referrals : Z)
    (pending_referrals contacted_referrals
     enrolled_referrals completed_referrals : option jstring).

(** [result.insertId] and [result.affectedRows]; undefined on a row set. *)
Definition insertId (r : results) : option Z :=
  match r with
  | ResultHeader i _ => Some i
  | _ => None
  end.

Definition affectedRows (r : results) : option Z :=
  match r with
  | ResultHeader _ n => Some n
  | _ => None
  end.

(** The callback's two arguments. *)
Inductive outcome : Type :=
| Err
| Ok (r : results).

(** The connection: the table behind it and the statements sent on it so
    far. *)
Record connection : Type := mkConnection {
  tbl : table;
  sent : list statement
}.

Definition initial : connection := mkConnection empty_table [].

(** ** Requests and responses *)

(** [res.status(code).json(payload)] *)
Inductive json : Type :=
| JError (error : string)                      (* { error } *)
| JCreated (i : option Z) (message : string)   (* { id, message } *)
| JMessage (message : string)                  (* { message } *)
| JResults (r : results)                       (* the query's results *)
| JNoRoute.                                    (* the router's own page *)

Record response : Type := mkResponse {
  code : Z;
  payload : json
}.

(** A JSON request body: an object whose fields are strings; a key that
    is absent reads as undefined. *)
Abbreviation body := (gmap string jstring).

(** [String(x)] as [test] applies it to its argument. *)
Definition to_string (x : option jstring) : jstring :=
  match x with
  | None => lit "undefined"
  | Some s => s
  end.

(** [list.includes(x)] *)
Definition includes (l : list jstring) (x : option jstring) : bool :=
  match x with
  | None => false
  | Some s => existsb (jstring_eqb s) l
  end.

Inductive request : Type :=
| GetReferrals                                   (* GET /api/referrals *)
| GetReferralsByReferrer (email : jstring)       (* GET /api/referrals/referrer/:email *)
| PostReferral (b : body)                        (* POST /api/referrals *)
| PatchReferral (i : Z) (b : body)               (* PATCH /api/referrals/:id,
                                                    the id read as the key i *)
| GetStatistics.                                 (* GET /api/statistics *)

Section Server.

(** The comparison of the server's collation on text columns. *)
Variable collate : jstring -> jstring -> bool.

(** *** The server's side of each statement *)

(** The INSERT of the create handler at time [now]: [status] takes its
    DEFAULT, both timestamps CURRENT_TIMESTAMP, [id] the counter. *)
Definition insert_referral (now : Z)
    (rname remail rphone ename eemail ephone crs : option jstring)
    (t : table) : outcome * table :=
  match varchar_not_null 100 rname, varchar_not_null 100 remail,
        varchar_not_null 20 rphone, varchar_not_null 100 ename,
        varchar_not_null 100 eemail, varchar_not_null 20 ephone,
        varchar_not_null 100 crs with
  | Some a, Some b, Some c, Some d, Some e, Some f, Some g =>
      if auto_increment t <=? INT_MAX then
        let r := mkReferral (auto_increment t) a b c d e f g
                   (Some (lit "pending")) now now in
        (Ok (ResultHeader (auto_increment t) 1),
         mkTable (rows t ++ [r]) (auto_increment t + 1))
      else (Err, t)
  | _, _, _, _, _, _, _ => (Err, t)
  end.

(** [SET status = ?] on one row at time [now].  [updated_at] is
    ON UPDATE CURRENT_TIMESTAMP: the server refreshes it when another
    column of the row changes value, and leaves it when the row is set
    to the values it already has. *)
Definition set_status (now : Z) (st : option jstring) (r : referral)
    : referral :=
  if bool_decide (status r = st) then r
  else mkReferral (id r) (referrer_name r) (referrer_email r)
         (referrer_phone r) (referee_name r) (referee_email r)
         (referee_phone r) (course r) st (created_at r) now.

(** [WHERE id = ?]; the parameter is the path token as the number the
    server compares with the INT column. *)
Definition where_id (i : Z) (r : referral) : bool := id r =? i.

(** The UPDATE of the status handler.  [affectedRows] counts the rows
    the WHERE clause found (the driver connects with the FOUND_ROWS
    flag).  When a row is to take the value, a string outside the
    enumeration is refused; NULL is a value of the column. *)
Definition update_status (now : Z) (st : option jstring) (i : Z)
    (t : table) : outcome * table :=
  let found := List.filter (where_id i) (rows t) in
  match found with
  | [] => (Ok (ResultHeader 0 0), t)
  | _ :: _ =>
      if match st with
         | None => true
         | Some s => existsb (jstring_eqb s) status_enum
         end
      then
        (Ok (ResultHeader 0 (Z.of_nat (length found))),
         mkTable
           (List.map
              (fun r => if where_id i r then set_status now st r else r)
              (rows t))
           (auto_increment t))
      else (Err, t)
  end.

Definition select_statistics (t : table) : results :=
  StatisticsRow (Z.of_nat (length (rows t)))
    (option_map decimal_text
       (sql_sum (List.map (case_status (lit "pending")) (rows t))))
    (option_map decimal_text
       (sql_sum (List.map (case_status (lit "contacted")) (rows t))))
    (option_map decimal_text
       (sql_sum (List.map (case_status (lit "enrolled")) (rows t))))
    (option_map decimal_text
       (sql_sum (List.map (case_status (lit "completed")) (rows t)))).

(** The server executing one statement at time [now]. *)
Definition execute (now : Z) (q : statement) (t : table) : outcome * table :=
  match q with
  | SelectAll =>
      (Ok (RowSet (order_by_created_at_desc (rows t))), t)
  | SelectByReferrer email =>
      (Ok (RowSet (order_by_created_at_desc
             (List.filter (fun r => collate (referrer_email r) email)
                (rows t)))), t)
  | InsertReferral a b c d e f g => insert_referral now a b c d e f g t
  | UpdateStatus st (Key i) => update_status now st i t
  | UpdateStatus st NoKey => (Ok (ResultHeader 0 0), t)
  | UpdateStatus st Refused => (Err, t)
  | SelectStatistics => (Ok (select_statistics t), t)
  end.

(** [db.query(query, params, callback)]: the statement goes out on the
    connection and the callback gets the outcome. *)
Definition db_query (now : Z) (q : statement) (c : connection)
    : outcome * connection :=
  let (o, t') := execute now q (tbl c) in
  (o, mkConnection t' (sent c ++ [q])).

(** *** The route handlers *)

(** [app.get("/api/referrals", ...)] *)
Definition getReferrals (now : Z) (c : connection) : response * connection :=
  match db_query now SelectAll c with
  | (Err, c') => (mkResponse 500 (JError "Failed to fetch referrals"), c')
  | (Ok rs, c') => (mkResponse 200 (JResults rs), c')
  end.

(** [app.get("/api/referrals/referrer/:email", ...)] *)
Definition getReferralsByReferrer (now : Z) (email : jstring)
    (c : connection) : response * connection :=
  match db_query now (SelectByReferrer email) c with
  | (Err, c') => (mkResponse 500 (JError "Failed to fetch referrals"), c')
  | (Ok rs, c') => (mkResponse 200 (JResults rs), c')
  end.

(** [app.post("/api/referrals", ...)] *)
Definition createReferral (now : Z) (b : body) (c : connection)
    : response * connection :=
  let referrerName := b !! "referrerName" in
  let referrerEmail := b !! "referrerEmail" in
  let referrerPhone := b !! "referrerPhone" in
  let refereeName := b !! "refereeName" in
  let refereeEmail := b !! "refereeEmail" in
  let refereePhone := b !! "refereePhone" in
  let course := b !! "course" in
  if falsy referrerName || falsy referrerEmail || falsy referrerPhone ||
     falsy refereeName || falsy refereeEmail || falsy refereePhone ||
     falsy course
  then (mkResponse 400 (JError "All fields are required"), c)
  else if negb (test emailRegex (to_string referrerEmail)) ||
          negb (test emailRegex (to_string refereeEmail))
  then (mkResponse 400 (JError "Invalid email format"), c)
  else if negb (test phoneRegex (to_string referrerPhone)) ||
          negb (test phoneRegex (to_string refereePhone))
  then (mkResponse 400 (JError "Phone number must be 10 digits"), c)
  else
    match db_query now
            (InsertReferral referrerName referrerEmail referrerPhone
               refereeName refereeEmail refereePhone course) c with
    | (Err, c') => (mkResponse 500 (JError "Failed to create referral"), c')
    | (Ok result, c') =>
        (mkResponse 201
           (JCreated (insertId result) "Referral created successfully"), c')
    end.

(** [app.patch("/api/referrals/:id", ...)] on a request whose path id
    the server reads as the key [i]; [patchReferral] below is the
    handler on the path token itself. *)
Definition updateReferralStatus (now : Z) (i : Z) (b : body)
    (c : connection) : response * connection :=
  let status := b !! "status" in
  if falsy status ||
     negb (includes
             [lit "pending"; lit "contacted"; lit "enrolled"; lit "completed"]
             status)
  then (mkResponse 400 (JError "Valid status is required"), c)
  else
    match db_query now (UpdateStatus status (Key i)) c with
    | (Err, c') =>
        (mkResponse 500 (JError "Failed to update referral status"), c')
    | (Ok result, c') =>
        if bool_decide (affectedRows result = Some 0)
        then (mkResponse 404 (JError "Referral not found"), c')
        else (mkResponse 200
                (JMessage "Referral status updated successfully"), c')
    end.

(** [app.get("/api/statistics", ...)]; [results[0]] is the one row of
    the aggregate. *)
Definition getStatistics (now : Z) (c : connection) : response * connection :=
  match db_query now SelectStatistics c with
  | (Err, c') => (mkResponse 500 (JError "Failed to fetch statistics"), c')
  | (Ok rs, c') => (mkResponse 200 (JResults rs), c')
  end.

(** The router.  A path parameter is never empty: with nothing after
    [referrer/] no route matches and the router answers 404 itself. *)
Definition handle (now : Z) (req : request) (c : connection)
    : response * connection :=
  match req with
  | GetReferrals => getReferrals now c
  | GetReferralsByReferrer [] => (mkResponse 404 JNoRoute, c)
  | GetReferralsByReferrer email => getReferralsByReferrer now email c
  | PostReferral b => createReferral now b c
  | PatchReferral i b => updateReferralStatus now i b c
  | GetStatistics => getStatistics now c
  end.

(** One request served, at some time. *)
Definition step (c c' : connection) : Prop :=
  exists now req, snd (handle now req c) = c'.

(** The states the server reaches from the empty table. *)
Definition reachable (c : connection) : Prop := rtc step initial c.

End Server.

(** [app.patch("/api/referrals/:id", ...)] on the path token itself:
    [const { id } = req.params] is a text, bound as it is to
    [WHERE id = ?]; [read_key] is how the server reads it there. *)
Definition patchReferral (collate : jstring -> jstring -> bool)
    (read_key : jstring -> key_reading)
    (now : Z) (token : jstring) (b : body) (c : connection)
    : response * connection :=
  let status := b !! "status" in
  if falsy status ||
     negb (includes
             [lit "pending"; lit "contacted"; lit "enrolled"; lit "completed"]
             status)
  then (mkResponse 400 (JError "Valid status is required"), c)
  else
    match db_query collate now (UpdateStatus status (read_key token)) c with
    | (Err, c') =>
        (mkResponse 500 (JError "Failed to update referral status"), c')
    | (Ok result, c') =>
        if bool_decide (affectedRows result = Some 0)
        then (mkResponse 404 (JError "Referral not found"), c')
        else (mkResponse 200
                (JMessage "Referral status updated successfully"), c')
    end.

(** ** The validation rules in words *)

(** The seven fields a create request must carry. *)
Definition create_fields : list string :=
  ["referrerName"; "referrerEmail"; "referrerPhone";
   "refereeName"; "refereeEmail"; "refereePhone"; "course"].

(** Field [k] of the body is present and is not the empty string. *)
Definition present (b : body) (k : string) : Prop :=
  exists s, b !! k = Some s /\ s <> [].

(** The text of field [k] (of a present field: its value). *)
Definition field (b : body) (k : string) : jstring :=
  to_string (b !! k).

(** One or more characters, none of them white space. *)
Definition nonspace_run (x : jstring) : Prop :=
  x <> [] /\ Forall (fun c => is_space c = false) x.

(** "One or more non-whitespace, [@], one or more non-whitespace, [.],
    one or more non-whitespace", found somewhere in [s]: the pattern has
    no anchors, so text may precede and follow it. *)
Definition email_pattern (s : jstring) : Prop :=
  exists pre x y z post,
    s = pre ++ x ++ [64%N] ++ y ++ [46%N] ++ z ++ post /\
    nonspace_run x /\ nonspace_run y /\ nonspace_run z.

(** Exactly ten decimal digits. *)
Definition ten_digits (s : jstring) : Prop :=
  length s = 10%nat /\ Forall (fun c => (48 <= c <= 57)%N) s.

(** One of the four status literals, letter for letter. *)
Definition status_literal (s : jstring) : Prop :=
  s = lit "pending" \/ s = lit "contacted" \/
  s = lit "enrolled" \/ s = lit "completed".

(** A row's stored status is a member of the enumeration. *)
Definition status_valid (r : referral) : Prop :=
  exists s, status r = Some s /\ status_literal s.

(** The PRIMARY KEY constraint: no two rows with one id. *)
Definition primary_key (t : table) : Prop :=
  NoDup (List.map id (rows t)).

(** [a] may stand before [b] in a listing. *)
Definition later_first (a b : referral) : Prop :=
  created_at b <= created_at a.

(** Rows by [created_at], latest first. *)
Definition created_desc (l : list referral) : Prop :=
  forall i j r1 r2,
    (i < j)%nat -> l !! i = Some r1 -> l !! j = Some r2 ->
    created_at r2 <= created_at r1.

(** What [ORDER BY created_at DESC] promises of its result: the selected
    rows, each once, latest first.  It promises no order among rows of
    one [created_at]. *)
Definition order_by_promise (selected result : list referral) : Prop :=
  Permutation result selected /\ created_desc result.

(** [r1] stands before [r2] in [l]. *)
Definition before_in (l : list referral) (r1 r2 : referral) : Prop :=
  exists i j, (i < j)%nat /\ l !! i = Some r1 /\ l !! j = Some r2.

(** The answers the two listing routes may give on a table: any result
    their SELECT is allowed to return, under 200. *)
Definition may_list_all (c : connection) (rs : list referral) : Prop :=
  order_by_promise (rows (tbl c)) rs.

Definition may_list_by_referrer (collate : jstring -> jstring -> bool)
    (email : jstring) (c : connection) (rs : list referral) : Prop :=
  order_by_promise
    (List.filter (fun r => collate (referrer_email r) email) (rows (tbl c)))
    rs.

(** A create input that passes the three rules. *)
Definition well_formed_create (b : body) : Prop :=
  (forall k, In k create_fields -> present b k) /\
  email_pattern (field b "referrerEmail") /\
  email_pattern (field b "refereeEmail") /\
  ten_digits (field b "referrerPhone") /\
  ten_digits (field b "refereePhone").

(** The names, the emails and the course fit their VARCHAR(100)
    columns. *)
Definition fits_columns (b : body) : Prop :=
  forall k,
    In k ["referrerName"; "referrerEmail"; "refereeName"; "refereeEmail";
          "course"] ->
    (length (field b k) <= 100)%nat.

(** The row a create input becomes under key [i] at time [now]. *)
Definition new_referral (i now : Z) (b : body) : referral :=
  mkReferral i
    (field b "referrerName") (field b "referrerEmail")
    (field b "referrerPhone") (field b "refereeName")
    (field b "refereeEmail") (field b "refereePhone") (field b "course")
    (Some (lit "pending")) now now.

(** The row [r] after its status is set to [s] at time [now]: the status
    is [s]; [updated_at] is [now] if the status changed and stays if it
    did not; every other column stays. *)
Definition with_status (now : Z) (s : jstring) (r : referral) : referral :=
  mkReferral (id r) (referrer_name r) (referrer_email r) (referrer_phone r)
    (referee_name r) (referee_email r) (referee_phone r) (course r)
    (Some s) (created_at r)
    (if bool_decide (status r = Some s) then updated_at r else now).

(** The constraints of the schema on a table: the primary key, keys
    from 1 up to the counter, and statuses of the enumeration. *)
Definition table_ok (t : table) : Prop :=
  primary_key t /\
  1 <= auto_increment t /\
  Forall (fun r => 1 <= id r < auto_increment t) (rows t) /\
  Forall status_valid (rows t).

(** ** Sample requests *)

Definition sample_body : body :=
  list_to_map
    [("referrerName", lit "Asha Rao");
     ("referrerEmail", lit "asha@example.com");
     ("referrerPhone", lit "9876543210");
     ("refereeName", lit "Ben Lee");
     ("refereeEmail", lit "ben@example.org");
     ("refereePhone", lit "9123456780");
     ("course", lit "Data Science")].

(** The sample with a referrer name of 101 letters. *)
Definition long_name_body : body :=
  <["referrerName" := repeat 97%N 101]> sample_body.

(** The sample with an empty referrer email. *)
Definition empty_email_body : body :=
  <["referrerEmail" := []]> sample_body.

(** The sample without its course. *)
Definition no_course_body : body :=
  delete "course" sample_body.

(** The sample with an email that has no dot after the [@]. *)
Definition bad_email_body : body :=
  <["refereeEmail" := lit "ben@example"]> sample_body.

(** The sample with that email and without its course. *)
Definition bad_email_no_course_body : body :=
  delete "course" bad_email_body.

(** The sample with a five-digit phone. *)
Definition short_phone_body : body :=
  <["referrerPhone" := lit "12345"]> sample_body.

(** The sample with fields the handler does not document. *)
Definition extra_fields_body : body :=
  <["status" := lit "completed"]>
    (<["id" := lit "999"]> (<["created_at" := lit "1999-01-01"]> sample_body)).

(** Status bodies. *)
Definition status_body (s : string) : body := {[ "status" := lit s ]}.

Definition no_status_body : body := delete "status" (status_body "pending").

(** An empty table whose key counter has run past INT. *)
Definition exhausted : connection :=
  mkConnection (mkTable [] (INT_MAX + 1)) [].

(** The server after one create of the sample at time 100. *)
Definition one_referral : connection :=
  mkConnection
    (mkTable [new_referral 1 100 sample_body] 2)
    [InsertReferral (sample_body !! "referrerName")
       (sample_body !! "referrerEmail") (sample_body !! "referrerPhone")
       (sample_body !! "refereeName") (sample_body !! "refereeEmail")
       (sample_body !! "refereePhone") (sample_body !! "course")].

(** The sample server compares text letter for letter. *)
Abbreviation binary := jstring_eqb.

(** The number a text of decimal digits writes. *)
Definition digits_value (s : jstring) : Z :=
  fold_left (fun acc c => 10 * acc + (Z.of_N c - 48)) s 0.

(** The sample server's reading of a path id: a text of decimal digits
    is the key it writes, and any other text is no number.  (Signs,
    fractions and exponents, which the server reads too, do not occur in
    the samples.) *)
Definition decimal_key (s : jstring) : key_reading :=
  match s with
  | [] => Refused
  | _ :: _ => if forallb is_digit s then Key (digits_value s) else Refused
  end.

(** The sample with another referrer. *)
Definition other_referrer_body : body :=
  <["referrerEmail" := lit "carl@example.net"]> sample_body.

(** The rows of three creates: the sample, another referrer, the sample
    again, all at time 100. *)
Definition row_one : referral := new_referral 1 100 sample_body.
Definition row_two : referral := new_referral 2 100 other_referrer_body.
Definition row_three : referral := new_referral 3 100 sample_body.

(** Three creates within one second: the sample, another referrer, the
    sample again. *)
Definition same_second : connection :=
  snd (handle binary 100 (PostReferral sample_body)
    (snd (handle binary 100 (PostReferral other_referrer_body)
      (snd (handle binary 100 (PostReferral sample_body) initial))))).

(** A run with a non-decreasing clock: a create at 100, then its status
    set to completed at 200. *)
Definition sample_run : list (Z * request) :=
  [(100, PostReferral sample_body);
   (200, PatchReferral 1 (status_body "completed"))].

(** Three creates, then one set to completed. *)
Definition three_then_completed : connection :=
  snd (handle binary 400 (PatchReferral 2 (status_body "completed"))
    (snd (handle binary 300 (PostReferral sample_body)
      (snd (handle binary 200 (PostReferral sample_body)
        (snd (handle binary 100 (PostReferral sample_body) initial))))))).

(** ** Notions for whole runs of the server *)

(** A run: requests served in turn, each at the time paired with it. *)
Definition serve (collate : jstring -> jstring -> bool)
    (c : connection) (log : list (Z * request)) : connection :=
  fold_left (fun c' tr => snd (handle collate (fst tr) (snd tr) c')) log c.

(** The clock of a run never goes back: each request is served no
    earlier than [now0] and than the request before it. *)
Fixpoint clock_from (now0 : Z) (log : list (Z * request)) : Prop :=
  match log with
  | [] => True
  | tr :: rest => now0 <= fst tr /\ clock_from (fst tr) rest
  end.

(** Every row was created no later than it was last updated, and that no
    later than [now]. *)
Definition timely (now : Z) (t : table) : Prop :=
  Forall (fun r => created_at r <= updated_at r <= now) (rows t).

(** What the create handler lets into a row: names and course not empty,
    emails with the email pattern, phones of ten digits, and the five
    wide columns within 100 characters. *)
Definition row_valid (r : referral) : Prop :=
  referrer_name r <> [] /\ referee_name r <> [] /\ course r <> [] /\
  email_pattern (referrer_email r) /\ email_pattern (referee_email r) /\
  ten_digits (referrer_phone r) /\ ten_digits (referee_phone r) /\
  (length (referrer_name r) <= 100)%nat /\
  (length (referrer_email r) <= 100)%nat /\
  (length (referee_name r) <= 100)%nat /\
  (length (referee_email r) <= 100)%nat /\
  (length (course r) <= 100)%nat.

(** [r'] is the row [r] at a later time: same id, same referrer, referee
    and course columns, same [created_at]. *)
Definition same_record (r r' : referral) : Prop :=
  id r' = id r /\
  referrer_name r' = referrer_name r /\
  referrer_email r' = referrer_email r /\
  referrer_phone r' = referrer_phone r /\
  referee_name r' = referee_name r /\
  referee_email r' = referee_email r /\
  referee_phone r' = referee_phone r /\
  course r' = course r /\
  created_at r' = created_at r.

(** The table [t'] keeps every row of [t], in place, and may have more
    after them. *)
Definition grows (t t' : table) : Prop :=
  exists kept added,
    rows t' = kept ++ added /\ Forall2 same_record (rows t) kept.

(** The number of rows whose status is [x]. *)
Definition count_status (x : jstring) (l : list referral) : Z :=
  Z.of_nat (length (List.filter (fun r => bool_decide (status r = Some x)) l)).

(** ** Properties of the regular expression matcher *)

Module RegexFacts.

Lemma matches_seq_inv r1 r2 s :
  matches (Seq r1 r2) s ->
  exists s1 s2, s = s1 ++ s2 /\ matches r1 s1 /\ matches r2 s2.
Proof. intros H. inversion H; subst. eauto. Qed.

Lemma matches_atom_inv a s :
  matches (Atom a) s -> exists c, s = [c] /\ atom_accepts a c = true.
Proof. intros H. inversion H; subst. eauto. Qed.

Lemma matches_alt_inv r1 r2 s :
  matches (Alt r1 r2) s -> matches r1 s \/ matches r2 s.
Proof. intros H. inversion H; subst; auto. Qed.

Lemma matches_nil_nullable r s :
  matches r s -> s = [] -> nullable r = true.
Proof.
  induction 1 as [ | a c Ha | r1 r2 s1 s2 H1 IH1 H2 IH2 | r1 r2 s H IH
                 | r1 r2 s H IH | r | r s1 s2 H1 IH1 H2 IH2 ];
    intros E; simpl; auto.
  - discriminate.
  - apply app_eq_nil in E as [-> ->]. rewrite IH1, IH2; auto.
  - rewrite IH; auto.
  - rewrite IH; auto. apply orb_true_r.
Qed.

Lemma nullable_matches_nil r : nullable r = true -> matches r [].
Proof.
  induction r as [ | | a | r1 IH1 r2 IH2 | r1 IH1 r2 IH2 | r IH ];
    simpl; intros E; try discriminate.
  - constructor.
  - apply andb_true_iff in E as [E1 E2].
    change (@nil N) with (@nil N ++ []). constructor; auto.
  - apply orb_true_iff in E as [E1 | E2].
    + apply MAltL; auto.
    + apply MAltR; auto.
  - constructor.
Qed.

Lemma nullable_spec r : nullable r = true <-> matches r [].
Proof.
  split; [apply nullable_matches_nil | intros H; eapply matches_nil_nullable; eauto].
Qed.

(** A non-empty word of [r*] starts with a non-empty word of [r]. *)
Lemma matches_star_cons r c s :
  matches (Star r) (c :: s) ->
  exists s1 s2, s = s1 ++ s2 /\ matches r (c :: s1) /\ matches (Star r) s2.
Proof.
  intros H. remember (Star r) as r' eqn:Er. remember (c :: s) as w eqn:Ew.
  revert c s Ew.
  induction H as [ | | | | | r0 | r0 s1 s2 H1 _ H2 IH2 ];
    intros d t Ew; try discriminate.
  injection Er as ->.
  destruct s1 as [ | c1 s1 ].
  - simpl in Ew. apply IH2; auto.
  - simpl in Ew. injection Ew as -> <-. exists s1, s2. auto.
Qed.

Lemma deriv_sound c r : forall s, matches (deriv c r) s -> matches r (c :: s).
Proof.
  induction r as [ | | a | r1 IH1 r2 IH2 | r1 IH1 r2 IH2 | r IH ];
    simpl; intros s H.
  - inversion H.
  - inversion H.
  - destruct (atom_accepts a c) eqn:Ea; inversion H; subst.
    constructor; auto.
  - assert (Hs : forall w, matches (Seq (deriv c r1) r2) w ->
                           matches (Seq r1 r2) (c :: w)).
    { intros w Hw. apply matches_seq_inv in Hw as (s1 & s2 & -> & Ha & Hb).
      change (c :: s1 ++ s2) with ((c :: s1) ++ s2). constructor; auto. }
    destruct (nullable r1) eqn:En; auto.
    apply matches_alt_inv in H as [HL | HR]; auto.
    change (c :: s) with ([] ++ c :: s). constructor; auto.
    apply nullable_matches_nil; auto.
  - apply matches_alt_inv in H as [HL | HR]; [apply MAltL | apply MAltR]; auto.
  - apply matches_seq_inv in H as (s1 & s2 & -> & Ha & Hb).
    change (c :: s1 ++ s2) with ((c :: s1) ++ s2). constructor; auto.
Qed.

Lemma deriv_complete c r : forall s, matches r (c :: s) -> matches (deriv c r) s.
Proof.
  induction r as [ | | a | r1 IH1 r2 IH2 | r1 IH1 r2 IH2 | r IH ];
    simpl; intros s H.
  - inversion H.
  - inversion H.
  - apply matches_atom_inv in H as (d & E & Ha). injection E as <- ->.
    rewrite Ha. constructor.
  - apply matches_seq_inv in H as (s1 & s2 & E & Ha & Hb).
    destruct s1 as [ | c1 s1 ]; simpl in E.
    + subst s2. rewrite (matches_nil_nullable _ _ Ha eq_refl).
      apply MAltR; auto.
    + injection E as <- ->.
      assert (Hd : matches (Seq (deriv c r1) r2) (s1 ++ s2))
        by (constructor; auto).
      destruct (nullable r1); [apply MAltL | ]; auto.
  - apply matches_alt_inv in H as [HL | HR]; [apply MAltL | apply MAltR]; auto.
  - apply matches_star_cons in H as (s1 & s2 & -> & Ha & Hb).
    constructor; auto.
Qed.

Lemma full_match_spec s : forall r, full_match r s = true <-> matches r s.
Proof.
  induction s as [ | c s IH ]; simpl; intros r.
  - apply nullable_spec.
  - rewrite IH. split; [apply deriv_sound | apply deriv_complete].
Qed.

Lemma prefix_match_spec s :
  forall r, prefix_match r s = true <->
            exists p q, s = p ++ q /\ matches r p.
Proof.
  induction s as [ | c s IH ]; intros r; simpl.
  - rewrite orb_false_r, nullable_spec. split.
    + intros H. exists [], []. auto.
    + intros (p & q & E & H). symmetry in E.
      apply app_eq_nil in E as [-> _]. auto.
  - rewrite orb_true_iff, nullable_spec, IH. split.
    + intros [H | (p & q & -> & H)].
      * exists [], (c :: s). auto.
      * exists (c :: p), q. split; auto. apply deriv_sound; auto.
    + intros (p & q & E & H). destruct p as [ | c' p ]; simpl in E.
      * left; auto.
      * injection E as <- ->. right. exists p, q. split; auto.
        apply deriv_complete; auto.
Qed.

Lemma search_spec r s :
  search r s = true <->
  exists a p q, s = a ++ p ++ q /\ matches r p.
Proof.
  induction s as [ | c s IH ]; cbn [search].
  - rewrite orb_false_r, prefix_match_spec. split.
    + intros (p & q & E & H). exists [], p, q. auto.
    + intros (a & p & q & E & H). symmetry in E.
      apply app_eq_nil in E as [-> E]. eauto.
  - rewrite orb_true_iff, prefix_match_spec, IH. split.
    + intros [(p & q & E & H) | (a & p & q & -> & H)].
      * exists [], p, q. auto.
      * exists (c :: a), p, q. auto.
    + intros (a & p & q & E & H). destruct a as [ | c' a ]; simpl in E.
      * left. eauto.
      * injection E as <- ->. right. eauto.
Qed.

(** [a*], [a+] and [a{n}] for a character class [a]. *)
Lemma star_atom a s :
  matches (Star (Atom a)) s <-> Forall (fun c => atom_accepts a c = true) s.
Proof.
  split.
  - intros H. remember (Star (Atom a)) as r eqn:Er.
    induction H as [ | | | | | r0 | r0 s1 s2 H1 _ H2 IH2 ];
      try discriminate.
    + constructor.
    + injection Er as ->. inversion H1; subst. simpl.
      constructor; auto.
  - induction 1 as [ | c s Hc _ IH ].
    + constructor.
    + change (c :: s) with ([c] ++ s). constructor; auto.
      constructor; auto.
Qed.

Lemma plus_atom a s :
  matches (Plus (Atom a)) s <->
  s <> [] /\ Forall (fun c => atom_accepts a c = true) s.
Proof.
  unfold Plus. split.
  - intros H. inversion H as [ | | ? ? s1 s2 Ha Hb | | | | ]; subst.
    inversion Ha; subst. apply star_atom in Hb. simpl.
    split; [discriminate | constructor; auto].
  - intros [Hn H]. destruct s as [ | c s ]; [congruence | ].
    inversion H; subst.
    change (c :: s) with ([c] ++ s). constructor.
    + constructor; auto.
    + apply star_atom; auto.
Qed.

Lemma repeat_atom a n :
  forall s, matches (Repeat n (Atom a)) s <->
            length s = n /\ Forall (fun c => atom_accepts a c = true) s.
Proof.
  induction n as [ | n IH ]; intros s; simpl.
  - split.
    + intros H. inversion H. auto.
    + intros [E _]. destruct s; [constructor | discriminate].
  - split.
    + intros H. inversion H as [ | | ? ? s1 s2 Ha Hb | | | | ]; subst.
      inversion Ha; subst. apply IH in Hb as [E Hf]. simpl.
      split; [congruence | constructor; auto].
    + intros [E H]. destruct s as [ | c s ]; [discriminate | ].
      inversion H; subst. injection E as E.
      change (c :: s) with ([c] ++ s). constructor.
      * constructor; auto.
      * apply IH; auto.
Qed.

End RegexFacts.

(** ** The two literals against the rules in words *)

Module Patterns.
Import RegexFacts.

Lemma nonspace_run_plus x :
  matches (Plus (Atom NonSpace)) x <-> nonspace_run x.
Proof.
  rewrite plus_atom. unfold nonspace_run. simpl.
  split; intros [Hn H]; split; auto;
    eapply Forall_impl; eauto; simpl; intros c Hc.
  - apply negb_true_iff; auto.
  - apply negb_true_iff; auto.
Qed.

(** The words of the pattern of [emailRegex]. *)
Lemma email_words p :
  matches (pattern emailRegex) p <->
  exists x y z,
    p = x ++ [64%N] ++ y ++ [46%N] ++ z /\
    nonspace_run x /\ nonspace_run y /\ nonspace_run z.
Proof.
  unfold emailRegex. cbn [pattern]. split.
  - intros H.
    apply matches_seq_inv in H as (x & p1 & -> & Hx & H).
    apply matches_seq_inv in H as (a & p2 & -> & Ha & H).
    apply matches_seq_inv in H as (y & p3 & -> & Hy & H).
    apply matches_seq_inv in H as (d & z & -> & Hd & Hz).
    apply matches_atom_inv in Ha as (ca & -> & Ea).
    apply matches_atom_inv in Hd as (cd & -> & Ed).
    simpl in Ea, Ed. apply N.eqb_eq in Ea, Ed. subst ca cd.
    exists x, y, z. rewrite <- !nonspace_run_plus. auto.
  - intros (x & y & z & -> & Hx & Hy & Hz).
    rewrite <- nonspace_run_plus in Hx, Hy, Hz.
    repeat (constructor; auto).
Qed.

(** [emailRegex.test(s)] holds exactly when [s] contains the pattern. *)
Lemma emailRegex_spec s : test emailRegex s = true <-> email_pattern s.
Proof.
  unfold test. cbn [anchor_start anchor_end emailRegex].
  change (search _ s) with (search (pattern emailRegex) s).
  rewrite search_spec. unfold email_pattern. split.
  - intros (pre & p & post & -> & H).
    apply email_words in H as (x & y & z & -> & Hx & Hy & Hz).
    exists pre, x, y, z, post. split; [ | auto].
    simpl. rewrite <- !app_assoc. simpl. rewrite <- !app_assoc. reflexivity.
  - intros (pre & x & y & z & post & -> & Hx & Hy & Hz).
    exists pre, (x ++ [64%N] ++ y ++ [46%N] ++ z), post. split.
    + simpl. rewrite <- !app_assoc. simpl. rewrite <- !app_assoc. reflexivity.
    + apply email_words. eauto 10.
Qed.

(** [phoneRegex.test(s)] holds exactly when [s] is ten digits. *)
Lemma phoneRegex_spec s : test phoneRegex s = true <-> ten_digits s.
Proof.
  unfold test. cbn [anchor_start anchor_end phoneRegex].
  change (full_match _ s) with (full_match (Repeat 10 (Atom Digit)) s).
  rewrite full_match_spec, repeat_atom. unfold ten_digits.
  split; intros [E H]; split; auto;
    eapply Forall_impl; eauto; simpl; unfold is_digit; intros c Hc.
  - apply andb_true_iff in Hc as [H1 H2].
    apply N.leb_le in H1, H2. lia.
  - apply andb_true_iff. split; apply N.leb_le; lia.
Qed.

Lemma emailRegex_refuses s : test emailRegex s = false <-> ~ email_pattern s.
Proof.
  rewrite <- emailRegex_spec. destruct (test emailRegex s); split; congruence.
Qed.

Lemma phoneRegex_refuses s : test phoneRegex s = false <-> ~ ten_digits s.
Proof.
  rewrite <- phoneRegex_spec. destruct (test phoneRegex s); split; congruence.
Qed.

End Patterns.

(** ** ORDER BY *)

Module OrderBy.

Lemma insert_desc_perm r l : Permutation (insert_desc r l) (r :: l).
Proof.
  induction l as [ | x l IH ]; simpl.
  - reflexivity.
  - destruct (created_at x <=? created_at r).
    + reflexivity.
    + rewrite IH. apply perm_swap.
Qed.

(** The ordered result holds every row once. *)
Lemma order_by_perm l : Permutation (order_by_created_at_desc l) l.
Proof.
  induction l as [ | x l IH ]; simpl.
  - reflexivity.
  - rewrite insert_desc_perm. constructor. exact IH.
Qed.

Lemma order_by_In l x : In x (order_by_created_at_desc l) <-> In x l.
Proof.
  split; apply Permutation_in;
    [ | symmetry ]; apply order_by_perm.
Qed.

Lemma insert_desc_sorted r l :
  StronglySorted later_first l -> StronglySorted later_first (insert_desc r l).
Proof.
  induction 1 as [ | x l Hs IH Hx ]; simpl.
  - repeat constructor.
  - destruct (created_at x <=? created_at r) eqn:E.
    + apply Z.leb_le in E. constructor; [constructor; auto | ].
      constructor; auto.
      eapply List.Forall_impl; [ | exact Hx ].
      unfold later_first. simpl. intros y Hy. lia.
    + apply Z.leb_gt in E. constructor; auto.
      apply List.Forall_forall. intros y Hy.
      apply (Permutation_in _ (insert_desc_perm r l)) in Hy.
      destruct Hy as [<- | Hy].
      * unfold later_first. lia.
      * rewrite List.Forall_forall in Hx. apply Hx. exact Hy.
Qed.

Lemma order_by_sorted l :
  StronglySorted later_first (order_by_created_at_desc l).
Proof.
  induction l as [ | x l IH ]; simpl.
  - constructor.
  - apply insert_desc_sorted. exact IH.
Qed.

Lemma sorted_created_desc l :
  StronglySorted later_first l -> created_desc l.
Proof.
  induction 1 as [ | x l Hs IH Hx ]; intros i j r1 r2 Hij H1 H2.
  - destruct i; discriminate.
  - destruct j as [ | j ]; [lia | ]. simpl in H2.
    destruct i as [ | i ]; simpl in H1.
    + injection H1 as <-. rewrite List.Forall_forall in Hx.
      apply Hx. apply list_elem_of_In. eapply list_elem_of_lookup_2. exact H2.
    + apply (IH i j); auto. lia.
Qed.

(** An ordered result is by [created_at], latest first. *)
Lemma order_by_created_desc l : created_desc (order_by_created_at_desc l).
Proof. apply sorted_created_desc, order_by_sorted. Qed.

(** Selecting from an ordered list and ordering the selection agree. *)
Lemma filter_insert_desc (p : referral -> bool) r l :
  StronglySorted later_first l ->
  List.filter p (insert_desc r l) =
  if p r then insert_desc r (List.filter p l) else List.filter p l.
Proof.
  induction 1 as [ | x l Hs IH Hx ]; simpl.
  - destruct (p r); reflexivity.
  - destruct (created_at x <=? created_at r) eqn:E.
    + simpl. destruct (p r) eqn:Er; [ | reflexivity ].
      destruct (p x) eqn:Ex; simpl.
      * rewrite E. reflexivity.
      * apply Z.leb_le in E.
        destruct (List.filter p l) as [ | y l' ] eqn:El; simpl; auto.
        assert (Hy : In y l).
        { eapply (proj1 (filter_In p y l)). rewrite El. left; reflexivity. }
        rewrite List.Forall_forall in Hx. specialize (Hx y Hy).
        unfold later_first in Hx.
        destruct (created_at y <=? created_at r) eqn:E'; auto.
        apply Z.leb_gt in E'. lia.
    + simpl. rewrite IH. destruct (p x) eqn:Ex; destruct (p r) eqn:Er;
        simpl; rewrite ?E; reflexivity.
Qed.

Lemma filter_order_by (p : referral -> bool) l :
  List.filter p (order_by_created_at_desc l) =
  order_by_created_at_desc (List.filter p l).
Proof.
  induction l as [ | x l IH ]; simpl.
  - reflexivity.
  - rewrite filter_insert_desc by apply order_by_sorted.
    rewrite IH. destruct (p x); reflexivity.
Qed.

End OrderBy.

(** ** Properties of the create handler *)

Section Create.

Variable collate : jstring -> jstring -> bool.

Lemma falsy_present (b : body) k : falsy (b !! k) = false <-> present b k.
Proof.
  unfold present. destruct (b !! k) as [ [ | c s ] | ]; simpl; split;
    try discriminate; try (intros (s' & E & Hs); congruence).
  intros _. eexists; split; [reflexivity | discriminate].
Qed.

(** The first test of the handler is the rule "every field present and
    non-empty". *)
Lemma required_check (b : body) :
  falsy (b !! "referrerName") || falsy (b !! "referrerEmail") ||
  falsy (b !! "referrerPhone") || falsy (b !! "refereeName") ||
  falsy (b !! "refereeEmail") || falsy (b !! "refereePhone") ||
  falsy (b !! "course") = false <->
  (forall k, In k create_fields -> present b k).
Proof.
  rewrite !orb_false_iff, !falsy_present. split.
  - intros [[[[[[H1 H2] H3] H4] H5] H6] H7] k Hk. simpl in Hk.
    repeat (destruct Hk as [ <- | Hk ]; [assumption | ]). contradiction.
  - intros H. repeat split; apply H; simpl; auto 10.
Qed.

Lemma required_check_fails (b : body) :
  (exists k, In k create_fields /\ ~ present b k) ->
  falsy (b !! "referrerName") || falsy (b !! "referrerEmail") ||
  falsy (b !! "referrerPhone") || falsy (b !! "refereeName") ||
  falsy (b !! "refereeEmail") || falsy (b !! "refereePhone") ||
  falsy (b !! "course") = true.
Proof.
  intros (k & Hk & Hn). apply not_false_iff_true. intros E.
  apply Hn. apply required_check; assumption.
Qed.

Lemma email_check (b : body) :
  negb (test emailRegex (to_string (b !! "referrerEmail"))) ||
  negb (test emailRegex (to_string (b !! "refereeEmail"))) = false <->
  email_pattern (field b "referrerEmail") /\
  email_pattern (field b "refereeEmail").
Proof.
  rewrite orb_false_iff, !negb_false_iff, !Patterns.emailRegex_spec.
  reflexivity.
Qed.

Lemma phone_check (b : body) :
  negb (test phoneRegex (to_string (b !! "referrerPhone"))) ||
  negb (test phoneRegex (to_string (b !! "refereePhone"))) = false <->
  ten_digits (field b "referrerPhone") /\
  ten_digits (field b "refereePhone").
Proof.
  rewrite orb_false_iff, !negb_false_iff, !Patterns.phoneRegex_spec.
  reflexivity.
Qed.

(** The handler, test by test. *)
Lemma createReferral_required now (b : body) c :
  (exists k, In k create_fields /\ ~ present b k) ->
  createReferral collate now b c =
  (mkResponse 400 (JError "All fields are required"), c).
Proof.
  intros H. unfold createReferral. cbv zeta.
  rewrite (required_check_fails b H). reflexivity.
Qed.

Lemma createReferral_email now (b : body) c :
  (forall k, In k create_fields -> present b k) ->
  ~ (email_pattern (field b "referrerEmail") /\
     email_pattern (field b "refereeEmail")) ->
  createReferral collate now b c =
  (mkResponse 400 (JError "Invalid email format"), c).
Proof.
  intros Hp He. unfold createReferral. cbv zeta.
  rewrite (proj2 (required_check b) Hp).
  destruct (negb (test emailRegex (to_string (b !! "referrerEmail"))) ||
            negb (test emailRegex (to_string (b !! "refereeEmail"))))
    eqn:E; [reflexivity | ].
  apply email_check in E. contradiction.
Qed.

Lemma createReferral_phone now (b : body) c :
  (forall k, In k create_fields -> present b k) ->
  email_pattern (field b "referrerEmail") ->
  email_pattern (field b "refereeEmail") ->
  ~ (ten_digits (field b "referrerPhone") /\
     ten_digits (field b "refereePhone")) ->
  createReferral collate now b c =
  (mkResponse 400 (JError "Phone number must be 10 digits"), c).
Proof.
  intros Hp He1 He2 Hn. unfold createReferral. cbv zeta.
  rewrite (proj2 (required_check b) Hp).
  rewrite (proj2 (email_check b) (conj He1 He2)).
  destruct (negb (test phoneRegex (to_string (b !! "referrerPhone"))) ||
            negb (test phoneRegex (to_string (b !! "refereePhone"))))
    eqn:E; [reflexivity | ].
  apply phone_check in E. contradiction.
Qed.

(** Past the three tests the handler sends the INSERT, once. *)
Lemma createReferral_insert now (b : body) c :
  (forall k, In k create_fields -> present b k) ->
  email_pattern (field b "referrerEmail") ->
  email_pattern (field b "refereeEmail") ->
  ten_digits (field b "referrerPhone") ->
  ten_digits (field b "refereePhone") ->
  createReferral collate now b c =
  match db_query collate now
          (InsertReferral (b !! "referrerName") (b !! "referrerEmail")
             (b !! "referrerPhone") (b !! "refereeName")
             (b !! "refereeEmail") (b !! "refereePhone") (b !! "course"))
          c with
  | (Err, c') => (mkResponse 500 (JError "Failed to create referral"), c')
  | (Ok result, c') =>
      (mkResponse 201
         (JCreated (insertId result) "Referral created successfully"), c')
  end.
Proof.
  intros Hp He1 He2 Hd1 Hd2. unfold createReferral. cbv zeta.
  rewrite (proj2 (required_check b) Hp).
  rewrite (proj2 (email_check b) (conj He1 He2)).
  rewrite (proj2 (phone_check b) (conj Hd1 Hd2)).
  reflexivity.
Qed.

(** Every response of the handler other than 201 and 500 is one of the
    three refusals, with the connection untouched. *)
Lemma createReferral_refusal now (b : body) c :
  code (fst (createReferral collate now b c)) = 400 ->
  snd (createReferral collate now b c) = c.
Proof.
  unfold createReferral. cbv zeta.
  repeat match goal with
         | |- context [if ?x then _ else _] => destruct x; [auto | ]
         end.
  destruct (db_query collate now _ c) as [[ | r] c']; simpl; discriminate.
Qed.

Lemma varchar_fits n s : (length s <= n)%nat -> varchar n s = Some s.
Proof.
  intros H. unfold varchar. apply Nat.leb_le in H. rewrite H. reflexivity.
Qed.

Lemma column_value n (b : body) k :
  present b k -> (length (field b k) <= n)%nat ->
  varchar_not_null n (b !! k) = Some (field b k).
Proof.
  unfold field. intros (s & -> & _). simpl. apply varchar_fits.
Qed.

(** The INSERT of a well-formed input that fits the columns. *)
Lemma insert_accepted now (b : body) t :
  well_formed_create b -> fits_columns b ->
  auto_increment t <= INT_MAX ->
  insert_referral now (b !! "referrerName") (b !! "referrerEmail")
    (b !! "referrerPhone") (b !! "refereeName") (b !! "refereeEmail")
    (b !! "refereePhone") (b !! "course") t =
  (Ok (ResultHeader (auto_increment t) 1),
   mkTable (rows t ++ [new_referral (auto_increment t) now b])
     (auto_increment t + 1)).
Proof.
  intros (Hp & _ & _ & [L1 _] & [L2 _]) Hf Hi. unfold insert_referral.
  rewrite !column_value;
    try (apply Hp; simpl; auto 10);
    try (apply Hf; simpl; auto 10);
    try (rewrite ?L1, ?L2; lia).
  apply Z.leb_le in Hi. rewrite Hi. reflexivity.
Qed.

(** What a 201 response means for the table. *)
Lemma createReferral_created now (b : body) c :
  code (fst (createReferral collate now b c)) = 201 ->
  exists r,
    rows (tbl (snd (createReferral collate now b c))) = rows (tbl c) ++ [r] /\
    status r = Some (lit "pending") /\
    id r = auto_increment (tbl c) /\
    created_at r = now /\ updated_at r = now /\
    payload (fst (createReferral collate now b c)) =
      JCreated (Some (auto_increment (tbl c))) "Referral created successfully".
Proof.
  unfold createReferral. cbv zeta.
  repeat match goal with
         | |- context [if ?x then _ else _] =>
             destruct x; [simpl; discriminate | ]
         end.
  unfold db_query, execute, insert_referral.
  repeat match goal with
         | |- context [match varchar_not_null ?n ?x with _ => _ end] =>
             destruct (varchar_not_null n x); [ | simpl; discriminate ]
         end.
  destruct (auto_increment (tbl c) <=? INT_MAX); [ | simpl; discriminate ].
  simpl. intros _. eexists. split; [reflexivity | ]. simpl. auto 10.
Qed.

(** C1, amended.  A create input whose seven fields are present and
    non-empty, whose emails contain the email pattern and whose phones
    are ten digits, and which the table accepts (names, emails and
    course of at most 100 characters, key counter within INT), inserts
    exactly one row: the input's fields under the next key, with status
    pending and both timestamps the server's clock.  The response is 201
    with that key, and every later listing shows the row. *)
Theorem create_accepted now (b : body) c :
  well_formed_create b -> fits_columns b ->
  auto_increment (tbl c) <= INT_MAX ->
  let r := new_referral (auto_increment (tbl c)) now b in
  let c' := snd (createReferral collate now b c) in
  fst (createReferral collate now b c) =
    mkResponse 201 (JCreated (Some (id r)) "Referral created successfully") /\
  rows (tbl c') = rows (tbl c) ++ [r] /\
  status r = Some (lit "pending") /\
  created_at r = now /\ updated_at r = now /\
  forall now', exists rs,
    fst (getReferrals collate now' c') = mkResponse 200 (JResults (RowSet rs)) /\
    In r rs.
Proof.
  intros Hw Hf Hi r c'.
  assert (E : createReferral collate now b c =
              (mkResponse 201
                 (JCreated (Some (id r)) "Referral created successfully"),
               mkConnection
                 (mkTable (rows (tbl c) ++ [r]) (auto_increment (tbl c) + 1))
                 (sent c ++
                  [InsertReferral (b !! "referrerName") (b !! "referrerEmail")
                     (b !! "referrerPhone") (b !! "refereeName")
                     (b !! "refereeEmail") (b !! "refereePhone")
                     (b !! "course")]))).
  { pose proof Hw as (Hp & He1 & He2 & Hd1 & Hd2).
    rewrite createReferral_insert by assumption.
    unfold db_query, execute.
    rewrite insert_accepted by assumption.
    reflexivity. }
  subst c'. rewrite E. simpl.
  repeat split; auto.
  intros now'. eexists. split; [reflexivity | ].
  apply OrderBy.order_by_In. apply in_or_app. right. left. reflexivity.
Qed.

(** C2.  The create handler applies its rules in order: a field absent
    or empty answers 400 "All fields are required"; otherwise an email
    without the pattern answers 400 "Invalid email format"; otherwise a
    phone that is not ten digits answers 400 "Phone number must be 10
    digits".  A 400 leaves the connection as it was: no statement sent,
    no row stored. *)
Theorem create_validation_order now (b : body) c :
  ((exists k, In k create_fields /\ ~ present b k) ->
   createReferral collate now b c =
   (mkResponse 400 (JError "All fields are required"), c)) /\
  ((forall k, In k create_fields -> present b k) ->
   ~ (email_pattern (field b "referrerEmail") /\
      email_pattern (field b "refereeEmail")) ->
   createReferral collate now b c =
   (mkResponse 400 (JError "Invalid email format"), c)) /\
  ((forall k, In k create_fields -> present b k) ->
   email_pattern (field b "referrerEmail") ->
   email_pattern (field b "refereeEmail") ->
   ~ (ten_digits (field b "referrerPhone") /\
      ten_digits (field b "refereePhone")) ->
   createReferral collate now b c =
   (mkResponse 400 (JError "Phone number must be 10 digits"), c)) /\
  (code (fst (createReferral collate now b c)) = 400 ->
   snd (createReferral collate now b c) = c).
Proof.
  split; [ | split; [ | split ] ].
  - apply createReferral_required.
  - apply createReferral_email.
  - apply createReferral_phone.
  - apply createReferral_refusal.
Qed.

(** C3, amended.  When the seven fields are present and non-empty, an
    email field that does not contain the pattern (one or more
    non-whitespace, [@], one or more non-whitespace, [.], one or more
    non-whitespace) answers 400 "Invalid email format".  When both
    email fields contain the pattern, the answer is never "Invalid
    email format", whatever the other fields are. *)
Theorem create_email_format now (b : body) c :
  ((forall k, In k create_fields -> present b k) ->
   ~ email_pattern (field b "referrerEmail") \/
   ~ email_pattern (field b "refereeEmail") ->
   createReferral collate now b c =
   (mkResponse 400 (JError "Invalid email format"), c)) /\
  (email_pattern (field b "referrerEmail") ->
   email_pattern (field b "refereeEmail") ->
   payload (fst (createReferral collate now b c)) <>
   JError "Invalid email format").
Proof.
  split.
  - intros Hp Hn. apply createReferral_email; [assumption | tauto].
  - intros He1 He2. unfold createReferral. cbv zeta.
    rewrite (proj2 (email_check b) (conj He1 He2)).
    repeat match goal with
           | |- context [if ?x then _ else _] =>
               destruct x; [simpl; discriminate | ]
           end.
    destruct (db_query collate now _ c) as [[ | r] c']; simpl; discriminate.
Qed.

(** C10.  The create handler reads the seven documented fields and
    nothing else: two bodies that agree on them get the same response
    and leave the same connection.  Whenever the response is 201, the
    new row has status pending and the key the table's counter gave,
    which is the id of the response. *)
Theorem create_reads_seven_fields now (b1 b2 : body) c :
  (forall k, In k create_fields -> b1 !! k = b2 !! k) ->
  createReferral collate now b1 c = createReferral collate now b2 c /\
  (code (fst (createReferral collate now b1 c)) = 201 ->
   exists r,
     rows (tbl (snd (createReferral collate now b1 c))) =
       rows (tbl c) ++ [r] /\
     status r = Some (lit "pending") /\
     id r = auto_increment (tbl c) /\
     payload (fst (createReferral collate now b1 c)) =
       JCreated (Some (auto_increment (tbl c)))
         "Referral created successfully").
Proof.
  intros H. split.
  - unfold createReferral. cbv zeta.
    rewrite !H by (simpl; auto 10). reflexivity.
  - intros E. destruct (createReferral_created now b1 c E)
      as (r & H1 & H2 & H3 & _ & _ & H4).
    exists r. auto.
Qed.

End Create.

(** ** Properties of the status handler *)

Lemma includes_status s :
  existsb (jstring_eqb s) status_enum = true <-> status_literal s.
Proof.
  unfold status_enum, status_literal, jstring_eqb. simpl.
  rewrite orb_false_r, !orb_true_iff, !bool_decide_eq_true. tauto.
Qed.

Lemma status_literal_nonempty s : status_literal s -> s <> [].
Proof. intros [-> | [-> | [-> | ->]]]; discriminate. Qed.

(** The test of the handler is the rule "one of the four literals". *)
Lemma status_check (b : body) :
  falsy (b !! "status") ||
  negb (includes
          [lit "pending"; lit "contacted"; lit "enrolled"; lit "completed"]
          (b !! "status")) = false <->
  exists s, b !! "status" = Some s /\ status_literal s.
Proof.
  rewrite orb_false_iff, negb_false_iff. split.
  - intros [_ H]. destruct (b !! "status") as [s | ]; [ | discriminate].
    exists s. split; auto. apply includes_status. exact H.
  - intros (s & -> & H). split.
    + pose proof (status_literal_nonempty s H). destruct s; simpl; congruence.
    + apply includes_status. exact H.
Qed.

(** Counting the rows a WHERE clause finds. *)
Lemma filter_none (p : referral -> bool) l :
  List.filter p l = [] <-> forall x, In x l -> p x = false.
Proof.
  induction l as [ | y l IH ]; simpl.
  - tauto.
  - destruct (p y) eqn:E; split.
    + discriminate.
    + intros H. specialize (H y (or_introl eq_refl)). congruence.
    + intros H x [<- | Hx]; auto. apply IH; auto.
    + intros H. apply IH. auto.
Qed.

Lemma filter_one (p : referral -> bool) l :
  length (List.filter p l) = 1%nat <->
  exists l1 r l2,
    l = l1 ++ r :: l2 /\ p r = true /\
    forall x, In x (l1 ++ l2) -> p x = false.
Proof.
  split.
  - induction l as [ | y l IH ]; simpl; [discriminate | ].
    destruct (p y) eqn:E; simpl; intros H.
    + exists [], y, l. repeat split; auto. simpl.
      apply filter_none. destruct (List.filter p l); [auto | discriminate].
    + destruct (IH H) as (l1 & r & l2 & -> & Hr & Hn).
      exists (y :: l1), r, l2. repeat split; auto.
      simpl. intros x [<- | Hx]; auto.
  - intros (l1 & r & l2 & -> & Hr & Hn).
    rewrite List.filter_app. simpl. rewrite Hr.
    rewrite (proj2 (filter_none p l1)), (proj2 (filter_none p l2));
      [reflexivity | | ]; intros x Hx; apply Hn, in_or_app; auto.
Qed.

Lemma where_id_true i r : where_id i r = true <-> id r = i.
Proof. unfold where_id. apply Z.eqb_eq. Qed.

Lemma where_id_false i r : where_id i r = false <-> id r <> i.
Proof. unfold where_id. apply Z.eqb_neq. Qed.

(** Under the primary key at most one row has a given id. *)
Lemma primary_key_found i l :
  NoDup (List.map id l) -> (length (List.filter (where_id i) l) <= 1)%nat.
Proof.
  induction l as [ | y l IH ]; simpl; intros H; [lia | ].
  apply NoDup_cons in H as [Hy Hl].
  destruct (where_id i y) eqn:E; simpl; [ | auto].
  apply where_id_true in E.
  rewrite (proj2 (filter_none (where_id i) l)); [simpl; lia | ].
  intros x Hx. apply where_id_false. intros Ex.
  apply Hy. apply list_elem_of_In. rewrite E, <- Ex.
  apply in_map. exact Hx.
Qed.

(** The UPDATE with one of the four literals. *)
Lemma update_status_valid now s i t :
  status_literal s ->
  update_status now (Some s) i t =
  (Ok (ResultHeader 0
         (Z.of_nat (length (List.filter (where_id i) (rows t))))),
   mkTable
     (List.map
        (fun r => if where_id i r then set_status now (Some s) r else r)
        (rows t))
     (auto_increment t)).
Proof.
  intros H. unfold update_status.
  rewrite (proj2 (includes_status s) H).
  destruct (List.filter (where_id i) (rows t)) eqn:E; [ | reflexivity ].
  simpl. f_equal. destruct t as [l n]. simpl in *. f_equal.
  rewrite <- (map_id l) at 1. apply map_ext_in.
  intros r Hr. rewrite (proj1 (filter_none _ _) E r Hr). reflexivity.
Qed.

Lemma map_untouched now st i l :
  (forall x, In x l -> id x <> i) ->
  List.map (fun r => if where_id i r then set_status now st r else r) l = l.
Proof.
  intros H. rewrite <- (map_id l) at 2. apply map_ext_in.
  intros r Hr. rewrite (proj2 (where_id_false i r)); auto.
Qed.

Lemma set_status_with_status now s r :
  set_status now (Some s) r = with_status now s r.
Proof.
  unfold set_status, with_status. destruct r as [? ? ? ? ? ? ? ? st ? ?].
  simpl. destruct (bool_decide (st = Some s)) eqn:E; [ | reflexivity ].
  apply bool_decide_eq_true in E. subst st. reflexivity.
Qed.

Lemma primary_key_split l1 r l2 :
  NoDup (List.map id (l1 ++ r :: l2)) ->
  forall x, In x (l1 ++ l2) -> id x <> id r.
Proof.
  rewrite map_app. simpl. intros H x Hx E.
  apply NoDup_ListNoDup, List.NoDup_remove_2 in H. apply H.
  rewrite <- map_app, <- E. apply in_map. exact Hx.
Qed.

Section Update.

Variable collate : jstring -> jstring -> bool.

Lemma updateReferralStatus_valid now i (b : body) c s :
  b !! "status" = Some s -> status_literal s ->
  updateReferralStatus collate now i b c =
  match db_query collate now (UpdateStatus (Some s) (Key i)) c with
  | (Err, c') =>
      (mkResponse 500 (JError "Failed to update referral status"), c')
  | (Ok result, c') =>
      if bool_decide (affectedRows result = Some 0)
      then (mkResponse 404 (JError "Referral not found"), c')
      else (mkResponse 200
              (JMessage "Referral status updated successfully"), c')
  end.
Proof.
  intros E H. unfold updateReferralStatus. cbv zeta.
  rewrite (proj2 (status_check b)) by eauto.
  rewrite E. reflexivity.
Qed.

Lemma updateReferralStatus_refuses now i (b : body) c :
  ~ (exists s, b !! "status" = Some s /\ status_literal s) ->
  updateReferralStatus collate now i b c =
  (mkResponse 400 (JError "Valid status is required"), c).
Proof.
  intros H. unfold updateReferralStatus. cbv zeta.
  destruct (falsy (b !! "status") || negb (includes _ (b !! "status")))
    eqn:E; [reflexivity | ].
  apply status_check in E. contradiction.
Qed.

(** C4.  A status that is missing, or is not one of the four literals
    letter for letter, answers 400 "Valid status is required" and
    leaves the connection as it was: no statement is sent and every
    stored row, its status included, stays. *)
Theorem update_rejects_unknown_status now i (b : body) c :
  b !! "status" = None \/
  (exists s, b !! "status" = Some s /\ ~ status_literal s) ->
  updateReferralStatus collate now i b c =
  (mkResponse 400 (JError "Valid status is required"), c).
Proof.
  intros H. apply updateReferralStatus_refuses.
  intros (s & E & Hs). destruct H as [H | (s' & H & Hn)]; congruence.
Qed.

(** With a valid status the UPDATE reports the number of rows whose id
    is the key read: 0 exactly when there is none (404), 1 exactly when
    there is one, and any number other than 0 answers 200. *)
Lemma updateReferralStatus_count now i (b : body) c s :
  b !! "status" = Some s -> status_literal s ->
  let n := Z.of_nat (length (List.filter (where_id i) (rows (tbl c)))) in
  fst (db_query collate now (UpdateStatus (Some s) (Key i)) c) =
    Ok (ResultHeader 0 n) /\
  (n = 0 <-> forall r, In r (rows (tbl c)) -> id r <> i) /\
  (n = 1 <->
   exists l1 r l2,
     rows (tbl c) = l1 ++ r :: l2 /\ id r = i /\
     forall x, In x (l1 ++ l2) -> id x <> i) /\
  fst (updateReferralStatus collate now i b c) =
    (if n =? 0
     then mkResponse 404 (JError "Referral not found")
     else mkResponse 200 (JMessage "Referral status updated successfully")) /\
  ((exists r, In r (rows (tbl c)) /\ id r = i) ->
   fst (updateReferralStatus collate now i b c) =
     mkResponse 200 (JMessage "Referral status updated successfully")) /\
  (primary_key (tbl c) -> n = 0 \/ n = 1).
Proof.
  intros E Hs n.
  assert (H0 : n = 0 <-> forall r, In r (rows (tbl c)) -> id r <> i).
  { assert (Hz : forall m, Z.of_nat m = 0 <-> m = 0%nat) by lia.
    unfold n. rewrite Hz, length_zero_iff_nil, filter_none.
    split; intros H r Hr; apply where_id_false; auto. }
  assert (Hr : fst (updateReferralStatus collate now i b c) =
               if n =? 0
               then mkResponse 404 (JError "Referral not found")
               else mkResponse 200
                      (JMessage "Referral status updated successfully")).
  { rewrite (updateReferralStatus_valid now i b c s E Hs).
    unfold db_query, execute. rewrite update_status_valid by assumption.
    fold n. cbn [affectedRows].
    destruct (Z.eqb_spec n 0) as [-> | Hn].
    - rewrite bool_decide_eq_true_2; reflexivity.
    - rewrite bool_decide_eq_false_2; [reflexivity | congruence]. }
  split; [ | split; [exact H0 | split; [ | split; [exact Hr | split] ] ] ].
  - unfold db_query, execute. rewrite update_status_valid by assumption.
    reflexivity.
  - assert (Hz : forall m, Z.of_nat m = 1 <-> m = 1%nat) by lia.
    unfold n. rewrite Hz, filter_one.
    split; intros (l1 & r & l2 & El & Er & Hn); exists l1, r, l2;
      (split; [exact El | split]).
    + apply where_id_true; auto.
    + intros x Hx. apply where_id_false; auto.
    + apply where_id_true; auto.
    + intros x Hx. apply where_id_false; auto.
  - intros (r & Hin & Er). rewrite Hr.
    destruct (Z.eqb_spec n 0) as [Hn | Hn]; [ | reflexivity].
    exfalso. exact (proj1 H0 Hn r Hin Er).
  - intros Hk. pose proof (primary_key_found i _ Hk). lia.
Qed.

(** C9, amended.  Under the primary key, a status update that answers
    200 changes the one row with the given id and no other: that row
    takes the new status and keeps its id, its referrer and referee
    columns, its course and its [created_at]; its [updated_at] becomes
    the server's clock when the status changed, and stays when the row
    already had that status.  The rows before and after it, and the key
    counter, stay. *)
Theorem update_frame now i (b : body) c s :
  b !! "status" = Some s -> primary_key (tbl c) ->
  fst (updateReferralStatus collate now i b c) =
    mkResponse 200 (JMessage "Referral status updated successfully") ->
  exists l1 r l2,
    rows (tbl c) = l1 ++ r :: l2 /\ id r = i /\
    (forall x, In x (l1 ++ l2) -> id x <> i) /\
    tbl (snd (updateReferralStatus collate now i b c)) =
      mkTable (l1 ++ with_status now s r :: l2) (auto_increment (tbl c)).
Proof.
  intros E Hk Hr. unfold primary_key in Hk.
  assert (Hs : status_literal s).
  { destruct (existsb (jstring_eqb s) status_enum) eqn:Hs.
    - apply includes_status. exact Hs.
    - rewrite updateReferralStatus_refuses in Hr; [discriminate | ].
      intros (s' & E' & Hs'). rewrite E in E'. injection E' as <-.
      apply includes_status in Hs'. congruence. }
  rewrite (updateReferralStatus_valid now i b c s E Hs) in Hr |- *.
  unfold db_query, execute in Hr |- *.
  rewrite update_status_valid in Hr |- * by assumption.
  cbn [affectedRows] in Hr |- *.
  destruct (List.filter (where_id i) (rows (tbl c))) as [ | r found ] eqn:Ef.
  { simpl in Hr. discriminate. }
  assert (Hin : In r (rows (tbl c)) /\ where_id i r = true).
  { apply filter_In. rewrite Ef. left. reflexivity. }
  destruct Hin as [Hin Hi]. apply where_id_true in Hi.
  apply in_split in Hin as (l1 & l2 & El).
  rewrite El in Hk.
  pose proof (primary_key_split l1 r l2 Hk) as Hn. rewrite Hi in Hn.
  exists l1, r, l2. repeat split; auto.
  rewrite bool_decide_eq_false_2 by (simpl; intros [= Hz]; lia).
  cbn [snd tbl]. f_equal. rewrite El, map_app. simpl.
  rewrite (proj2 (where_id_true i r) Hi), set_status_with_status.
  rewrite !map_untouched; [reflexivity | | ];
    intros x Hx; apply Hn, in_or_app; auto.
Qed.

End Update.

(** ** The schema's constraints hold in every state the server reaches *)

Lemma initial_ok : table_ok (tbl initial).
Proof.
  unfold table_ok, primary_key. simpl.
  repeat split; try constructor; lia.
Qed.

Lemma insert_referral_ok now a b c d e f g t :
  table_ok t -> table_ok (snd (insert_referral now a b c d e f g t)).
Proof.
  intros Ht. pose proof Ht as (Hk & H1 & Hb & Hs).
  unfold insert_referral.
  repeat match goal with
         | |- context [match varchar_not_null ?n ?x with _ => _ end] =>
             destruct (varchar_not_null n x); [ | exact Ht ]
         end.
  destruct (auto_increment t <=? INT_MAX); [ | exact Ht ].
  cbn [snd]. unfold table_ok, primary_key. cbn [rows auto_increment].
  split; [ | split; [lia | split] ].
  - rewrite map_app. simpl. apply NoDup_ListNoDup.
    apply NoDup_ListNoDup in Hk.
    apply List.NoDup_app; [assumption | repeat constructor; simpl; tauto | ].
    intros x Hx [<- | []].
    apply in_map_iff in Hx as (r & Er & Hr).
    rewrite List.Forall_forall in Hb. specialize (Hb r Hr). lia.
  - apply Forall_app. split.
    + eapply List.Forall_impl; [ | exact Hb ]. simpl. intros r Hr. lia.
    + repeat constructor; simpl; lia.
  - apply Forall_app. split; [assumption | ].
    repeat constructor. exists (lit "pending").
    split; [reflexivity | left; reflexivity].
Qed.

Lemma update_status_ok now s i t :
  status_literal s ->
  table_ok t -> table_ok (snd (update_status now (Some s) i t)).
Proof.
  intros Hl (Hk & H1 & Hb & Hs).
  rewrite update_status_valid by assumption.
  cbn [snd]. unfold table_ok, primary_key. cbn [rows auto_increment].
  set (f := fun r => if where_id i r then set_status now (Some s) r else r).
  assert (Hid : forall r, id (f r) = id r).
  { intros r. unfold f. destruct (where_id i r); [ | reflexivity ].
    rewrite set_status_with_status. reflexivity. }
  split; [ | split; [assumption | split] ].
  - rewrite map_map. rewrite (map_ext _ id Hid). exact Hk.
  - apply List.Forall_map. eapply List.Forall_impl; [ | exact Hb ].
    simpl. intros r Hr. rewrite Hid. exact Hr.
  - apply List.Forall_map. eapply List.Forall_impl; [ | exact Hs ].
    simpl. intros r Hr. unfold f. destruct (where_id i r); [ | exact Hr ].
    rewrite set_status_with_status. exists s. split; [reflexivity | exact Hl].
Qed.

Section Invariant.

Variable collate : jstring -> jstring -> bool.

Lemma tbl_db_query now q c :
  tbl (snd (db_query collate now q c)) = snd (execute collate now q (tbl c)).
Proof.
  unfold db_query. destruct (execute collate now q (tbl c)). reflexivity.
Qed.

(** Each handler keeps the constraints. *)
Lemma createReferral_ok now (b : body) c :
  table_ok (tbl c) -> table_ok (tbl (snd (createReferral collate now b c))).
Proof.
  intros H. unfold createReferral. cbv zeta.
  repeat match goal with
         | |- context [if ?x then _ else _] => destruct x; [exact H | ]
         end.
  match goal with
  | |- context [db_query collate now ?q c] =>
      pose proof (tbl_db_query now q c) as E;
      destruct (db_query collate now q c) as [[ | r] c']
  end; simpl in E |- *; rewrite E; apply insert_referral_ok; exact H.
Qed.

Lemma updateReferralStatus_ok now i (b : body) c :
  table_ok (tbl c) ->
  table_ok (tbl (snd (updateReferralStatus collate now i b c))).
Proof.
  intros H. unfold updateReferralStatus. cbv zeta.
  destruct (falsy (b !! "status") || negb (includes _ (b !! "status")))
    eqn:Ec; [exact H | ].
  apply status_check in Ec as (s & Es & Hs). rewrite Es.
  pose proof (tbl_db_query now (UpdateStatus (Some s) (Key i)) c) as E.
  destruct (db_query collate now (UpdateStatus (Some s) (Key i)) c) as [[ | r] c'];
    simpl in E; [ | destruct (bool_decide _) ]; simpl; rewrite E;
    apply update_status_ok; assumption.
Qed.

Lemma handle_ok now req c :
  table_ok (tbl c) -> table_ok (tbl (snd (handle collate now req c))).
Proof.
  intros H. destruct req as [ | email | b | i b | ]; simpl.
  - exact H.
  - destruct email; exact H.
  - apply createReferral_ok. exact H.
  - apply updateReferralStatus_ok. exact H.
  - exact H.
Qed.

Lemma reachable_ok c : reachable collate c -> table_ok (tbl c).
Proof.
  unfold reachable. revert c.
  apply (rtc_ind_r (fun c => table_ok (tbl c)) initial).
  - apply initial_ok.
  - intros c1 c2 _ (now & req & <-) IH. apply handle_ok. exact IH.
Qed.

(** C8.  In every state the server reaches from the empty table, by
    whatever requests, each stored row has as status one of pending,
    contacted, enrolled and completed. *)
Theorem status_always_valid c r :
  reachable collate c -> In r (rows (tbl c)) -> status_valid r.
Proof.
  intros H Hr. destruct (reachable_ok c H) as (_ & _ & _ & Hs).
  rewrite List.Forall_forall in Hs. apply Hs. exact Hr.
Qed.

End Invariant.

(** ** Properties of the two listings *)

Lemma created_desc_sorted l :
  created_desc l -> StronglySorted later_first l.
Proof.
  induction l as [ | x l IH ]; intros H; constructor.
  - apply IH. intros i j r1 r2 Hij H1 H2.
    apply (H (S i) (S j) r1 r2); [lia | exact H1 | exact H2].
  - apply List.Forall_forall. intros y Hy.
    apply list_elem_of_In, list_elem_of_lookup in Hy as [j Hj].
    apply (H 0%nat (S j) x y); [lia | reflexivity | exact Hj].
Qed.

Lemma sorted_filter (p : referral -> bool) l :
  StronglySorted later_first l ->
  StronglySorted later_first (List.filter p l).
Proof.
  induction 1 as [ | x l Hs IH Hx ]; simpl; [constructor | ].
  destruct (p x); [ | exact IH ].
  constructor; [exact IH | ].
  apply List.Forall_forall. intros y Hy. apply filter_In in Hy as [Hy _].
  rewrite List.Forall_forall in Hx. apply Hx. exact Hy.
Qed.

Lemma permutation_filter (p : referral -> bool) l l' :
  Permutation l l' -> Permutation (List.filter p l) (List.filter p l').
Proof.
  induction 1 as [ | x l l' _ IH | x y l | l1 l2 l3 _ IH1 _ IH2 ]; simpl.
  - constructor.
  - destruct (p x); [constructor | ]; exact IH.
  - destruct (p x), (p y); try reflexivity. apply perm_swap.
  - etransitivity; eassumption.
Qed.

Lemma filter_twice (p : referral -> bool) l :
  List.filter p (List.filter p l) = List.filter p l.
Proof.
  induction l as [ | x l IH ]; simpl; [reflexivity | ].
  destruct (p x) eqn:E; simpl; rewrite ?E, IH; reflexivity.
Qed.

(** Rows of different [created_at] stand in every allowed result in one
    order. *)
Lemma before_in_sorted l1 l2 r1 r2 :
  created_desc l1 -> created_desc l2 ->
  (forall r, In r l1 -> In r l2) ->
  before_in l1 r1 r2 -> created_at r1 <> created_at r2 ->
  before_in l2 r1 r2.
Proof.
  intros H1 H2 Hsub (i & j & Hij & Hi & Hj) Hne.
  pose proof (H1 i j r1 r2 Hij Hi Hj) as Hle.
  assert (In1 : In r1 l2).
  { apply Hsub, list_elem_of_In. eapply list_elem_of_lookup_2. exact Hi. }
  assert (In2 : In r2 l2).
  { apply Hsub, list_elem_of_In. eapply list_elem_of_lookup_2. exact Hj. }
  apply list_elem_of_In, list_elem_of_lookup in In1 as [i' Hi'].
  apply list_elem_of_In, list_elem_of_lookup in In2 as [j' Hj'].
  exists i', j'. split; [ | auto ].
  destruct (Nat.lt_trichotomy i' j') as [Hlt | [Heq | Hgt]]; [exact Hlt | | ].
  - subst j'. rewrite Hi' in Hj'. injection Hj' as <-. congruence.
  - pose proof (H2 j' i' r2 r1 Hgt Hj' Hi'). lia.
Qed.

(** Two allowed results for the same rows are the same list when no two
    of the rows have one [created_at]. *)
Lemma sorted_unique l1 l2 :
  NoDup (List.map created_at l1) ->
  StronglySorted later_first l1 ->
  StronglySorted later_first l2 ->
  Permutation l1 l2 -> l1 = l2.
Proof.
  intros Hn S1 S2 Hp.
  apply (StronglySorted_unique_strong later_first); auto.
  intros x1 x2 Hx1 Hx2 Ha Hb.
  assert (Hx2' : x2 ∈ l1) by (rewrite Hp; exact Hx2).
  assert (E : created_at x1 = created_at x2)
    by (unfold later_first in Ha, Hb; lia).
  clear -Hn Hx1 Hx2' E.
  induction l1 as [ | y l IH ]; [inversion Hx1 | ].
  simpl in Hn. apply NoDup_cons in Hn as [Hy Hl].
  apply elem_of_cons in Hx1 as [-> | Hx1];
    apply elem_of_cons in Hx2' as [-> | Hx2']; auto.
  - exfalso. apply Hy. rewrite E.
    apply list_elem_of_In, in_map, list_elem_of_In. exact Hx2'.
  - exfalso. apply Hy. rewrite <- E.
    apply list_elem_of_In, in_map, list_elem_of_In. exact Hx1.
Qed.

Lemma nodup_filter_keys (p : referral -> bool) l :
  NoDup (List.map created_at l) ->
  NoDup (List.map created_at (List.filter p l)).
Proof.
  induction l as [ | x l IH ]; simpl; intros H; [exact H | ].
  apply NoDup_cons in H as [Hx Hl].
  destruct (p x); [ | auto ].
  simpl. apply NoDup_cons. split; [ | auto ].
  intros Hin. apply Hx.
  apply list_elem_of_In, in_map_iff in Hin as (y & Ey & Hy).
  apply filter_In in Hy as [Hy _].
  apply list_elem_of_In, in_map_iff. exists y. auto.
Qed.

Section Listing.

Variable collate : jstring -> jstring -> bool.

(** What the two handlers answer in the model is a result their SELECT
    may give, under 200. *)
Lemma getReferrals_allowed now c :
  exists rs,
    fst (getReferrals collate now c) =
      mkResponse 200 (JResults (RowSet rs)) /\
    may_list_all c rs.
Proof.
  eexists. split; [reflexivity | ].
  split; [apply OrderBy.order_by_perm | apply OrderBy.order_by_created_desc].
Qed.

Lemma getReferralsByReferrer_allowed now e c :
  exists rs,
    fst (getReferralsByReferrer collate now e c) =
      mkResponse 200 (JResults (RowSet rs)) /\
    may_list_by_referrer collate e c rs.
Proof.
  eexists. split; [reflexivity | ].
  split; [apply OrderBy.order_by_perm | apply OrderBy.order_by_created_desc].
Qed.

(** C7, amended.  On any table and for any email [e], whatever results
    the two SELECTs give within what ORDER BY created_at DESC promises:
    the listing by referrer holds exactly the rows of the full listing
    whose [referrer_email] the server compares equal to [e], each once,
    latest [created_at] first; two of them with different [created_at]
    stand in the order the full listing has them; and when no two rows
    of the table have one [created_at], it is the full listing filtered,
    in that order.  When no row compares equal it is empty.  Both
    handlers answer 200 with such a result. *)
Theorem referrer_listing_against_full_listing e c all byref :
  may_list_all c all -> may_list_by_referrer collate e c byref ->
  Permutation byref
    (List.filter (fun r => collate (referrer_email r) e) all) /\
  created_desc byref /\
  (forall r1 r2,
      before_in byref r1 r2 -> created_at r1 <> created_at r2 ->
      before_in all r1 r2) /\
  (NoDup (List.map created_at (rows (tbl c))) ->
   byref = List.filter (fun r => collate (referrer_email r) e) all) /\
  ((forall r, In r (rows (tbl c)) -> collate (referrer_email r) e = false) ->
   byref = []) /\
  (forall now, exists rs,
      fst (getReferrals collate now c) =
        mkResponse 200 (JResults (RowSet rs)) /\ may_list_all c rs) /\
  (forall now, exists rs,
      fst (getReferralsByReferrer collate now e c) =
        mkResponse 200 (JResults (RowSet rs)) /\
      may_list_by_referrer collate e c rs).
Proof.
  intros [Pa Sa] [Pb Sb].
  set (p := fun r => collate (referrer_email r) e) in *.
  assert (Pf : Permutation byref (List.filter p all)).
  { rewrite Pb. symmetry. apply permutation_filter. exact Pa. }
  split; [exact Pf | ]. split; [exact Sb | ].
  split; [ | split; [ | split; [ | split ] ] ].
  - intros r1 r2 Hb Hne.
    apply (before_in_sorted byref all r1 r2 Sb Sa); auto.
    intros r Hr. apply (Permutation_in _ Pf) in Hr.
    apply filter_In in Hr as [Hr _]. exact Hr.
  - intros Hn. apply sorted_unique.
    + rewrite Pb. apply nodup_filter_keys. exact Hn.
    + apply created_desc_sorted. exact Sb.
    + apply sorted_filter, created_desc_sorted. exact Sa.
    + exact Pf.
  - intros Hnone.
    rewrite (proj2 (filter_none p (rows (tbl c))) Hnone) in Pb.
    apply Permutation_nil. symmetry. exact Pb.
  - intros now. apply getReferrals_allowed.
  - intros now. apply getReferralsByReferrer_allowed.
Qed.

End Listing.

(** ** Properties of the statistics *)

Lemma case_status_once r :
  status_valid r ->
  case_status (lit "pending") r + case_status (lit "contacted") r +
  case_status (lit "enrolled") r + case_status (lit "completed") r = 1.
Proof.
  intros (s & E & [-> | [-> | [-> | ->]]]); unfold case_status; rewrite E;
    vm_compute; reflexivity.
Qed.

Lemma case_status_bit x r : 0 <= case_status x r <= 1.
Proof.
  unfold case_status. destruct (status r) as [s | ]; [ | lia ].
  destruct (jstring_eqb s x); lia.
Qed.

Lemma sum_case_status_nonneg x l :
  0 <= fold_right Z.add 0 (List.map (case_status x) l).
Proof.
  induction l as [ | r l IH ]; simpl; [lia | ].
  pose proof (case_status_bit x r). lia.
Qed.

Lemma sum_case_status_total l :
  Forall status_valid l ->
  fold_right Z.add 0 (List.map (case_status (lit "pending")) l) +
  fold_right Z.add 0 (List.map (case_status (lit "contacted")) l) +
  fold_right Z.add 0 (List.map (case_status (lit "enrolled")) l) +
  fold_right Z.add 0 (List.map (case_status (lit "completed")) l) =
  Z.of_nat (length l).
Proof.
  induction 1 as [ | r l Hr _ IH ]; [reflexivity | ].
  cbn [List.map fold_right length]. pose proof (case_status_once r Hr). lia.
Qed.

Section Statistics.

Variable collate : jstring -> jstring -> bool.

(** On a table with at least one row, all of valid status, the total
    is the number of rows and the four status figures are the decimal
    texts of non-negative integers that add up to the total. *)
Lemma statistics_populated now c :
  rows (tbl c) <> [] -> Forall status_valid (rows (tbl c)) ->
  exists p q e d,
    fst (getStatistics collate now c) =
      mkResponse 200
        (JResults (StatisticsRow (Z.of_nat (length (rows (tbl c))))
                     (Some (decimal_text p)) (Some (decimal_text q))
                     (Some (decimal_text e)) (Some (decimal_text d)))) /\
    0 <= p /\ 0 <= q /\ 0 <= e /\ 0 <= d /\
    p + q + e + d = Z.of_nat (length (rows (tbl c))).
Proof.
  intros Hn Hs.
  exists (fold_right Z.add 0 (List.map (case_status (lit "pending")) (rows (tbl c)))),
         (fold_right Z.add 0 (List.map (case_status (lit "contacted")) (rows (tbl c)))),
         (fold_right Z.add 0 (List.map (case_status (lit "enrolled")) (rows (tbl c)))),
         (fold_right Z.add 0 (List.map (case_status (lit "completed")) (rows (tbl c)))).
  split; [ | repeat split;
             try apply sum_case_status_nonneg;
             apply sum_case_status_total, Hs ].
  unfold getStatistics, db_query, execute, select_statistics. cbn [fst].
  destruct (rows (tbl c)) as [ | r l ]; [congruence | reflexivity].
Qed.

(** C6 at the empty table.  The total is 0 and each of the four status
    sums is NULL, not 0: a SUM over no rows has no value. *)
Theorem statistics_empty_table now :
  fst (getStatistics collate now initial) =
  mkResponse 200 (JResults (StatisticsRow 0 None None None None)).
Proof. reflexivity. Qed.

End Statistics.

(** ** The handlers on the sample requests *)

(** Each of the seven fields of a given body is present. *)
Ltac all_present :=
  let k := fresh "k" in
  let H := fresh "H" in
  intros k H; simpl in H;
  repeat (destruct H as [ <- | H ];
          [eexists; split; [vm_compute; reflexivity | discriminate] | ]);
  contradiction.

(** A given string has, or has not, the email pattern or ten digits. *)
Ltac by_regex :=
  first
    [ apply Patterns.emailRegex_spec; vm_compute; reflexivity
    | apply Patterns.phoneRegex_spec; vm_compute; reflexivity
    | apply Patterns.emailRegex_refuses; vm_compute; reflexivity
    | apply Patterns.phoneRegex_refuses; vm_compute; reflexivity ].

Lemma sample_present k : In k create_fields -> present sample_body k.
Proof. revert k. all_present. Qed.

Lemma sample_well_formed : well_formed_create sample_body.
Proof. split; [exact sample_present | repeat split; by_regex ]. Qed.

Lemma long_name_well_formed : well_formed_create long_name_body.
Proof. split; [all_present | repeat split; by_regex ]. Qed.

Lemma sample_fits : fits_columns sample_body.
Proof.
  intros k H. simpl in H.
  repeat (destruct H as [ <- | H ]; [vm_compute; lia | ]).
  contradiction.
Qed.

Lemma one_referral_reachable : reachable binary one_referral.
Proof.
  apply rtc_once. exists 100, (PostReferral sample_body).
  vm_compute. reflexivity.
Qed.

Lemma extra_fields_agree k :
  In k create_fields -> extra_fields_body !! k = sample_body !! k.
Proof.
  intros H. simpl in H.
  repeat (destruct H as [ <- | H ]; [vm_compute; reflexivity | ]).
  contradiction.
Qed.

(** *** Create *)

(** The sample is accepted on the empty table: key 1, status pending. *)
Lemma create_accepted_sample :
  well_formed_create sample_body /\ fits_columns sample_body /\
  auto_increment (tbl initial) <= INT_MAX /\
  fst (createReferral binary 100 sample_body initial) =
    mkResponse 201 (JCreated (Some 1) "Referral created successfully") /\
  rows (tbl (snd (createReferral binary 100 sample_body initial))) =
    [new_referral 1 100 sample_body].
Proof.
  assert (Hi : auto_increment (tbl initial) <= INT_MAX)
    by (vm_compute; discriminate).
  split; [exact sample_well_formed | ].
  split; [exact sample_fits | ].
  split; [exact Hi | ].
  destruct (create_accepted binary 100 sample_body initial
              sample_well_formed sample_fits Hi) as (H1 & H2 & _).
  split; [exact H1 | exact H2].
Defined.

(** C1 as stated fails: a well-formed input whose referrer name has 101
    letters is refused by the table, the answer is 500 and no row is
    stored. *)
Lemma create_long_name_refused :
  well_formed_create long_name_body /\
  fst (createReferral binary 100 long_name_body initial) =
    mkResponse 500 (JError "Failed to create referral") /\
  rows (tbl (snd (createReferral binary 100 long_name_body initial))) = [].
Proof.
  split; [exact long_name_well_formed | ].
  split; vm_compute; reflexivity.
Qed.

(** Past the end of the key range the INSERT fails as well. *)
Example create_counter_exhausted :
  fst (createReferral binary 100 sample_body exhausted) =
    mkResponse 500 (JError "Failed to create referral") /\
  rows (tbl (snd (createReferral binary 100 sample_body exhausted))) = [].
Proof. split; vm_compute; reflexivity. Qed.

(** The three refusals, each on the sample with one field spoiled. *)
Lemma create_validation_order_samples :
  createReferral binary 100 no_course_body initial =
    (mkResponse 400 (JError "All fields are required"), initial) /\
  createReferral binary 100 bad_email_body initial =
    (mkResponse 400 (JError "Invalid email format"), initial) /\
  createReferral binary 100 short_phone_body initial =
    (mkResponse 400 (JError "Phone number must be 10 digits"), initial).
Proof.
  split; [ | split ].
  - apply (proj1 (create_validation_order binary 100 no_course_body initial)).
    exists "course". split; [simpl; auto 10 | ].
    intros (s & E & _). vm_compute in E. discriminate.
  - apply (proj1 (proj2
             (create_validation_order binary 100 bad_email_body initial))).
    + all_present.
    + intros [_ H]. revert H. by_regex.
  - apply (proj1 (proj2 (proj2
             (create_validation_order binary 100 short_phone_body initial)))).
    + all_present.
    + by_regex.
    + by_regex.
    + intros [H _]. revert H. by_regex.
Defined.

(** C3 as stated fails: an empty referrer email does not have the
    pattern, yet the answer is "All fields are required"; so is the
    answer for a referee email without the pattern when the course is
    missing. *)
Lemma create_empty_email_not_email_error :
  (~ email_pattern (field empty_email_body "referrerEmail") /\
   fst (createReferral binary 100 empty_email_body initial) =
     mkResponse 400 (JError "All fields are required") /\
   payload (fst (createReferral binary 100 empty_email_body initial)) <>
     JError "Invalid email format") /\
  (~ email_pattern (field bad_email_no_course_body "refereeEmail") /\
   fst (createReferral binary 100 bad_email_no_course_body initial) =
     mkResponse 400 (JError "All fields are required")).
Proof.
  split.
  - split; [by_regex | ].
    split; [vm_compute; reflexivity | vm_compute; discriminate].
  - split; [by_regex | vm_compute; reflexivity].
Qed.

(** An email without the pattern, and two emails with it beside a bad
    phone. *)
Lemma create_email_format_samples :
  createReferral binary 100 bad_email_body initial =
    (mkResponse 400 (JError "Invalid email format"), initial) /\
  payload (fst (createReferral binary 100 short_phone_body initial)) <>
    JError "Invalid email format".
Proof.
  split.
  - apply (proj1 (create_email_format binary 100 bad_email_body initial)).
    + all_present.
    + right. by_regex.
  - apply (proj2 (create_email_format binary 100 short_phone_body initial));
      by_regex.
Defined.

(** A body that also carries status, id and created_at is served as the
    sample is. *)
Lemma create_reads_seven_fields_sample :
  (forall k, In k create_fields -> extra_fields_body !! k = sample_body !! k) /\
  createReferral binary 100 extra_fields_body initial =
    createReferral binary 100 sample_body initial /\
  exists r,
    rows (tbl (snd (createReferral binary 100 extra_fields_body initial))) =
      rows (tbl initial) ++ [r] /\
    status r = Some (lit "pending") /\ id r = 1.
Proof.
  split; [exact extra_fields_agree | ].
  destruct (create_reads_seven_fields binary 100 extra_fields_body sample_body
              initial extra_fields_agree) as [H1 H2].
  split; [exact H1 | ].
  destruct H2 as (r & Hr & Hs & Hi & _); [vm_compute; reflexivity | ].
  exists r. auto.
Defined.

(** *** Status update *)

Lemma cancelled_not_literal : ~ status_literal (lit "cancelled").
Proof. intros [H | [H | [H | H]]]; vm_compute in H; discriminate. Qed.

Lemma capital_not_literal : ~ status_literal (lit "Pending").
Proof. intros [H | [H | [H | H]]]; vm_compute in H; discriminate. Qed.

Lemma empty_not_literal : ~ status_literal (lit "").
Proof. intros [H | [H | [H | H]]]; vm_compute in H; discriminate. Qed.

(** "cancelled", the empty string, "Pending" and a body without status
    are refused and leave the stored referral as it is. *)
Lemma update_rejects_unknown_status_samples :
  updateReferralStatus binary 200 1 (status_body "cancelled") one_referral =
    (mkResponse 400 (JError "Valid status is required"), one_referral) /\
  updateReferralStatus binary 200 1 (status_body "") one_referral =
    (mkResponse 400 (JError "Valid status is required"), one_referral) /\
  updateReferralStatus binary 200 1 (status_body "Pending") one_referral =
    (mkResponse 400 (JError "Valid status is required"), one_referral) /\
  updateReferralStatus binary 200 1 no_status_body one_referral =
    (mkResponse 400 (JError "Valid status is required"), one_referral).
Proof.
  split; [ | split; [ | split ] ]; apply update_rejects_unknown_status.
  - right. exists (lit "cancelled").
    split; [vm_compute; reflexivity | exact cancelled_not_literal].
  - right. exists (lit "").
    split; [vm_compute; reflexivity | exact empty_not_literal].
  - right. exists (lit "Pending").
    split; [vm_compute; reflexivity | exact capital_not_literal].
  - left. vm_compute. reflexivity.
Defined.

Lemma enrolled_literal : status_literal (lit "enrolled").
Proof. right. right. left. reflexivity. Qed.

Lemma status_body_enrolled :
  status_body "enrolled" !! "status" = Some (lit "enrolled").
Proof. vm_compute. reflexivity. Qed.

Lemma one_referral_primary_key : primary_key (tbl one_referral).
Proof.
  unfold primary_key. simpl. apply NoDup_singleton.
Qed.

(** Setting the stored referral to enrolled at time 200 changes its
    status and its [updated_at] and nothing else. *)
Lemma update_frame_sample :
  status_body "enrolled" !! "status" = Some (lit "enrolled") /\
  primary_key (tbl one_referral) /\
  tbl (snd (updateReferralStatus binary 200 1 (status_body "enrolled")
              one_referral)) =
    mkTable [with_status 200 (lit "enrolled") (new_referral 1 100 sample_body)]
      2.
Proof.
  split; [exact status_body_enrolled | ].
  split; [exact one_referral_primary_key | ].
  destruct (update_frame binary 200 1 (status_body "enrolled") one_referral
              (lit "enrolled") status_body_enrolled one_referral_primary_key)
    as (l1 & r & l2 & El & Ei & Hn & Ht); [vm_compute; reflexivity | ].
  rewrite Ht. simpl in El.
  destruct l1 as [ | x l1 ]; simpl in El.
  - injection El as <- <-. reflexivity.
  - injection El as _ El. destruct l1; discriminate.
Defined.

(** C9 as stated fails: setting a pending referral to pending at time 200
    answers 200 and leaves its [updated_at] at 100. *)
Lemma update_same_status_keeps_updated_at :
  reachable binary one_referral /\
  List.map updated_at (rows (tbl one_referral)) = [100] /\
  fst (updateReferralStatus binary 200 1 (status_body "pending")
         one_referral) =
    mkResponse 200 (JMessage "Referral status updated successfully") /\
  List.map updated_at
    (rows (tbl (snd (updateReferralStatus binary 200 1 (status_body "pending")
                       one_referral)))) = [100].
Proof.
  split; [exact one_referral_reachable | ].
  repeat split; vm_compute; reflexivity.
Qed.

(** *** Reachable states *)

(** The referral stored by one create has a valid status. *)
Lemma status_always_valid_sample :
  reachable binary one_referral /\
  In (new_referral 1 100 sample_body) (rows (tbl one_referral)) /\
  status_valid (new_referral 1 100 sample_body).
Proof.
  assert (Hin : In (new_referral 1 100 sample_body) (rows (tbl one_referral)))
    by (left; reflexivity).
  split; [exact one_referral_reachable | ].
  split; [exact Hin | ].
  exact (status_always_valid binary one_referral _ one_referral_reachable Hin).
Defined.

(** *** The scenarios of the specification *)

Example scenario_A :
  fst (handle binary 100 (PostReferral sample_body) initial) =
    mkResponse 201 (JCreated (Some 1) "Referral created successfully") /\
  fst (handle binary 150 GetReferrals
         (snd (handle binary 100 (PostReferral sample_body) initial))) =
    mkResponse 200 (JResults (RowSet [new_referral 1 100 sample_body])).
Proof. split; vm_compute; reflexivity. Qed.

Example scenario_B :
  fst (handle binary 100 (PostReferral short_phone_body) initial) =
    mkResponse 400 (JError "Phone number must be 10 digits").
Proof. vm_compute. reflexivity. Qed.

Example scenario_C :
  fst (handle binary 100 (PatchReferral 999999 (status_body "enrolled"))
         initial) =
    mkResponse 404 (JError "Referral not found").
Proof. vm_compute. reflexivity. Qed.

Example scenario_D :
  fst (handle binary 500 GetStatistics three_then_completed) =
    mkResponse 200
      (JResults
         (StatisticsRow 3 (Some (lit "2")) (Some (lit "0")) (Some (lit "0"))
            (Some (lit "1")))).
Proof. vm_compute. reflexivity. Qed.

Example listing_latest_first :
  match payload (fst (handle binary 500 GetReferrals three_then_completed)) with
  | JResults (RowSet rs) => List.map id rs = [3; 2; 1]
  | _ => False
  end.
Proof. vm_compute. reflexivity. Qed.

Example emailRegex_inside : test emailRegex (lit "to a@b.c now") = true.
Proof. vm_compute. reflexivity. Qed.

Example phoneRegex_samples :
  test phoneRegex (lit "9876543210") = true /\
  test phoneRegex (lit "12345") = false /\
  test phoneRegex (lit "12345678901") = false /\
  test phoneRegex (lit "123abc7890") = false.
Proof. repeat split; vm_compute; reflexivity. Qed.

(** ** What one request does to the table *)

(** The INSERT either is refused and leaves the table, or appends one
    row made of the stored parameters. *)
Lemma insert_referral_cases now a b c d e f g t :
  snd (insert_referral now a b c d e f g t) = t \/
  exists a' b' c' d' e' f' g',
    varchar_not_null 100 a = Some a' /\ varchar_not_null 100 b = Some b' /\
    varchar_not_null 20 c = Some c' /\ varchar_not_null 100 d = Some d' /\
    varchar_not_null 100 e = Some e' /\ varchar_not_null 20 f = Some f' /\
    varchar_not_null 100 g = Some g' /\
    auto_increment t <= INT_MAX /\
    insert_referral now a b c d e f g t =
    (Ok (ResultHeader (auto_increment t) 1),
     mkTable
       (rows t ++
        [mkReferral (auto_increment t) a' b' c' d' e' f' g'
           (Some (lit "pending")) now now])
       (auto_increment t + 1)).
Proof.
  unfold insert_referral.
  destruct (varchar_not_null 100 a) as [a' | ]; [ | left; reflexivity ].
  destruct (varchar_not_null 100 b) as [b' | ]; [ | left; reflexivity ].
  destruct (varchar_not_null 20 c) as [c' | ]; [ | left; reflexivity ].
  destruct (varchar_not_null 100 d) as [d' | ]; [ | left; reflexivity ].
  destruct (varchar_not_null 100 e) as [e' | ]; [ | left; reflexivity ].
  destruct (varchar_not_null 20 f) as [f' | ]; [ | left; reflexivity ].
  destruct (varchar_not_null 100 g) as [g' | ]; [ | left; reflexivity ].
  destruct (auto_increment t <=? INT_MAX) eqn:E; [ | left; reflexivity ].
  apply Z.leb_le in E.
  right. exists a', b', c', d', e', f', g'. repeat split; auto.
Qed.

Section Effects.

Variable collate : jstring -> jstring -> bool.

(** The create handler leaves the table alone or runs its INSERT on a
    well-formed input. *)
Lemma createReferral_table now (b : body) c :
  tbl (snd (createReferral collate now b c)) = tbl c \/
  (well_formed_create b /\
   tbl (snd (createReferral collate now b c)) =
   snd (insert_referral now (b !! "referrerName") (b !! "referrerEmail")
          (b !! "referrerPhone") (b !! "refereeName") (b !! "refereeEmail")
          (b !! "refereePhone") (b !! "course") (tbl c))).
Proof.
  unfold createReferral. cbv zeta.
  destruct (falsy (b !! "referrerName") || falsy (b !! "referrerEmail") ||
            falsy (b !! "referrerPhone") || falsy (b !! "refereeName") ||
            falsy (b !! "refereeEmail") || falsy (b !! "refereePhone") ||
            falsy (b !! "course")) eqn:E1; [left; reflexivity | ].
  destruct (negb (test emailRegex (to_string (b !! "referrerEmail"))) ||
            negb (test emailRegex (to_string (b !! "refereeEmail"))))
    eqn:E2; [left; reflexivity | ].
  destruct (negb (test phoneRegex (to_string (b !! "referrerPhone"))) ||
            negb (test phoneRegex (to_string (b !! "refereePhone"))))
    eqn:E3; [left; reflexivity | ].
  right. split.
  - pose proof (proj1 (required_check b) E1).
    apply email_check in E2 as [? ?].
    apply phone_check in E3 as [? ?]. unfold well_formed_create. auto.
  - match goal with
    | |- context [db_query collate now ?q c] =>
        pose proof (tbl_db_query collate now q c) as E;
        destruct (db_query collate now q c) as [[ | r] c']
    end; simpl in E |- *; exact E.
Qed.

(** The status handler leaves the table alone or runs its UPDATE with
    one of the four literals. *)
Lemma updateReferralStatus_table now i (b : body) c :
  tbl (snd (updateReferralStatus collate now i b c)) = tbl c \/
  exists s,
    b !! "status" = Some s /\ status_literal s /\
    tbl (snd (updateReferralStatus collate now i b c)) =
    mkTable
      (List.map
         (fun r => if where_id i r then set_status now (Some s) r else r)
         (rows (tbl c)))
      (auto_increment (tbl c)).
Proof.
  unfold updateReferralStatus. cbv zeta.
  destruct (falsy (b !! "status") || negb (includes _ (b !! "status")))
    eqn:Ec; [left; reflexivity | ].
  apply status_check in Ec as (s & Es & Hs). right. exists s.
  split; [exact Es | split; [exact Hs | ] ]. rewrite Es.
  pose proof (tbl_db_query collate now (UpdateStatus (Some s) (Key i)) c) as E.
  simpl in E. rewrite update_status_valid in E by assumption. simpl in E.
  destruct (db_query collate now (UpdateStatus (Some s) (Key i)) c) as [[ | r] c'];
    simpl in E; [ | destruct (bool_decide _) ]; simpl; exact E.
Qed.

(** The three GET handlers leave the table alone. *)
Lemma get_table now req c :
  match req with
  | PostReferral _ | PatchReferral _ _ => True
  | _ => tbl (snd (handle collate now req c)) = tbl c
  end.
Proof. destruct req as [ | [ | ? ?] | | | ]; simpl; auto. Qed.

(** To show that a property of tables holds after every request, show
    it for the INSERT of a well-formed input and for the UPDATE with a
    status literal. *)
Lemma handle_table_ind (P : table -> Prop) now req c :
  (forall (b : body),
      well_formed_create b ->
      P (snd (insert_referral now (b !! "referrerName")
                (b !! "referrerEmail") (b !! "referrerPhone")
                (b !! "refereeName") (b !! "refereeEmail")
                (b !! "refereePhone") (b !! "course") (tbl c)))) ->
  (forall s i,
      status_literal s ->
      P (mkTable
           (List.map
              (fun r => if where_id i r then set_status now (Some s) r else r)
              (rows (tbl c)))
           (auto_increment (tbl c)))) ->
  P (tbl c) -> P (tbl (snd (handle collate now req c))).
Proof.
  intros Hi Hu H. destruct req as [ | [ | ? ?] | b | i b | ]; simpl; auto.
  - destruct (createReferral_table now b c) as [-> | [Hw ->]]; auto.
  - destruct (updateReferralStatus_table now i b c)
      as [-> | (s & _ & Hs & ->)]; auto.
Qed.

End Effects.

(** ** Keys *)

Section Keys.

Variable collate : jstring -> jstring -> bool.

(** Induction over the states the server reaches, one table change at a
    time. *)
Lemma reachable_table_ind (P : table -> Prop) :
  P empty_table ->
  (forall now (b : body) t,
      well_formed_create b -> P t ->
      P (snd (insert_referral now (b !! "referrerName")
                (b !! "referrerEmail") (b !! "referrerPhone")
                (b !! "refereeName") (b !! "refereeEmail")
                (b !! "refereePhone") (b !! "course") t))) ->
  (forall now s i t,
      status_literal s -> P t ->
      P (mkTable
           (List.map
              (fun r => if where_id i r then set_status now (Some s) r else r)
              (rows t))
           (auto_increment t))) ->
  forall c, reachable collate c -> P (tbl c).
Proof.
  intros H0 Hi Hu. unfold reachable.
  apply (rtc_ind_r (fun c => P (tbl c)) initial).
  - exact H0.
  - intros c1 c2 _ (now & req & <-) IH.
    apply handle_table_ind; auto.
Qed.

(** The counter never passes the end of INT by more than one. *)
Lemma reachable_counter c :
  reachable collate c -> auto_increment (tbl c) <= INT_MAX + 1.
Proof.
  revert c.
  apply (reachable_table_ind (fun t => auto_increment t <= INT_MAX + 1)).
  - vm_compute. discriminate.
  - intros now b t _ Ht.
    destruct (insert_referral_cases now (b !! "referrerName")
                (b !! "referrerEmail") (b !! "referrerPhone")
                (b !! "refereeName") (b !! "refereeEmail")
                (b !! "refereePhone") (b !! "course") t)
      as [-> | (? & ? & ? & ? & ? & ? & ? & _ & _ & _ & _ & _ & _ & _ & Hm & ->)];
      [exact Ht | simpl; lia].
  - intros now s i t _ Ht. exact Ht.
Qed.

(** X1.  In every state the server reaches no two stored referrals have
    the same id, and every id is a positive INT. *)
Theorem ids_unique_and_in_range c :
  reachable collate c ->
  primary_key (tbl c) /\
  forall r, In r (rows (tbl c)) -> 1 <= id r <= INT_MAX.
Proof.
  intros H. destruct (reachable_ok collate c H) as (Hk & _ & Hb & _).
  pose proof (reachable_counter c H) as Hc.
  split; [exact Hk | ].
  intros r Hr. rewrite List.Forall_forall in Hb. specialize (Hb r Hr). lia.
Qed.

(** A request never lowers the key counter. *)
Lemma handle_counter now req c :
  auto_increment (tbl c) <=
  auto_increment (tbl (snd (handle collate now req c))).
Proof.
  apply handle_table_ind with (P := fun t => auto_increment (tbl c) <= auto_increment t).
  - intros b _.
    destruct (insert_referral_cases now (b !! "referrerName")
                (b !! "referrerEmail") (b !! "referrerPhone")
                (b !! "refereeName") (b !! "refereeEmail")
                (b !! "refereePhone") (b !! "course") (tbl c))
      as [-> | (? & ? & ? & ? & ? & ? & ? & _ & _ & _ & _ & _ & _ & _ & Hm & ->)];
      simpl; lia.
  - intros s i _. simpl. lia.
  - lia.
Qed.

Lemma serve_counter log :
  forall c,
    auto_increment (tbl c) <= auto_increment (tbl (serve collate c log)).
Proof.
  induction log as [ | tr log IH ]; intros c; simpl.
  - lia.
  - etransitivity; [apply (handle_counter (fst tr) (snd tr)) | apply IH].
Qed.

(** What a 201 does to the counter. *)
Lemma createReferral_counter now (b : body) c :
  code (fst (createReferral collate now b c)) = 201 ->
  auto_increment (tbl (snd (createReferral collate now b c))) =
  auto_increment (tbl c) + 1.
Proof.
  intros E.
  destruct (createReferral_created collate now b c E) as (r & Hr & _).
  destruct (createReferral_table collate now b c) as [Ht | [_ Ht]].
  - rewrite Ht in Hr. apply (f_equal (@length referral)) in Hr.
    rewrite length_app in Hr. simpl in Hr. lia.
  - rewrite Ht in Hr |- *.
    destruct (insert_referral_cases now (b !! "referrerName")
                (b !! "referrerEmail") (b !! "referrerPhone")
                (b !! "refereeName") (b !! "refereeEmail")
                (b !! "refereePhone") (b !! "course") (tbl c))
      as [Hs | (? & ? & ? & ? & ? & ? & ? & _ & _ & _ & _ & _ & _ & _ & _ & Hs)].
    + rewrite Hs in Hr. apply (f_equal (@length referral)) in Hr.
      rewrite length_app in Hr. simpl in Hr. lia.
    + rewrite Hs. reflexivity.
Qed.

(** X2.  The id a create returns is new and ids only grow: in a state the
    server reaches, a 201 carries an id that is a positive INT above
    every id stored so far, and any create answered 201 later, after
    whatever requests in between, carries a larger id. *)
Theorem created_ids_increase now (b : body) c i m :
  reachable collate c ->
  fst (createReferral collate now b c) = mkResponse 201 (JCreated (Some i) m) ->
  (1 <= i <= INT_MAX) /\
  (forall r, In r (rows (tbl c)) -> id r < i) /\
  forall log now' (b' : body) j m',
    fst (createReferral collate now' b'
           (serve collate (snd (createReferral collate now b c)) log)) =
      mkResponse 201 (JCreated (Some j) m') ->
    i < j.
Proof.
  intros Hc E.
  assert (E201 : code (fst (createReferral collate now b c)) = 201)
    by (rewrite E; reflexivity).
  destruct (createReferral_created collate now b c E201)
    as (r & Hr & _ & Hid & _ & _ & Hp).
  rewrite E in Hp. simpl in Hp. injection Hp as -> _.
  destruct (reachable_ok collate c Hc) as (_ & H1 & Hb & _).
  assert (Hc' : reachable collate (snd (createReferral collate now b c))).
  { eapply rtc_r; [exact Hc | ]. exists now, (PostReferral b). reflexivity. }
  pose proof (reachable_counter _ Hc') as Hm.
  rewrite (createReferral_counter now b c E201) in Hm.
  split; [lia | split].
  - intros x Hx. rewrite List.Forall_forall in Hb. specialize (Hb x Hx). lia.
  - intros log now' b' j m' E'.
    set (c2 := serve collate (snd (createReferral collate now b c)) log) in *.
    assert (E201' : code (fst (createReferral collate now' b' c2)) = 201)
      by (rewrite E'; reflexivity).
    destruct (createReferral_created collate now' b' c2 E201')
      as (_ & _ & _ & _ & _ & _ & Hp').
    rewrite E' in Hp'. simpl in Hp'. injection Hp' as -> _.
    pose proof (serve_counter log (snd (createReferral collate now b c))) as Hs.
    fold c2 in Hs. rewrite (createReferral_counter now b c E201) in Hs. lia.
Qed.

End Keys.

(** ** Rows stay *)

Lemma same_record_refl r : same_record r r.
Proof. unfold same_record. repeat split; reflexivity. Qed.

Lemma same_record_trans r1 r2 r3 :
  same_record r1 r2 -> same_record r2 r3 -> same_record r1 r3.
Proof.
  unfold same_record. intros H1 H2.
  destruct H1 as (A1 & A2 & A3 & A4 & A5 & A6 & A7 & A8 & A9).
  destruct H2 as (B1 & B2 & B3 & B4 & B5 & B6 & B7 & B8 & B9).
  repeat split; congruence.
Qed.

Lemma same_record_set_status now st r : same_record r (set_status now st r).
Proof.
  unfold set_status. destruct (bool_decide (status r = st)).
  - apply same_record_refl.
  - unfold same_record. simpl. repeat split; reflexivity.
Qed.

Lemma same_records_refl l : Forall2 same_record l l.
Proof. induction l; constructor; auto using same_record_refl. Qed.

Lemma grows_refl t : grows t t.
Proof.
  exists (rows t), []. split; [symmetry; apply app_nil_r | apply same_records_refl].
Qed.

Lemma grows_trans t1 t2 t3 : grows t1 t2 -> grows t2 t3 -> grows t1 t3.
Proof.
  intros (k1 & a1 & E1 & F1) (k2 & a2 & E2 & F2).
  rewrite E1 in F2. apply Forall2_app_inv_l in F2 as (k21 & k22 & G1 & G2 & ->).
  exists k21, (k22 ++ a2). split.
  - rewrite E2, app_assoc. reflexivity.
  - eapply Forall2_trans; [ | exact F1 | exact G1 ].
    intros x y z. apply same_record_trans.
Qed.

Lemma grows_insert now a b c d e f g t :
  grows t (snd (insert_referral now a b c d e f g t)).
Proof.
  destruct (insert_referral_cases now a b c d e f g t)
    as [-> | (? & ? & ? & ? & ? & ? & ? & _ & _ & _ & _ & _ & _ & _ & _ & ->)].
  - apply grows_refl.
  - simpl. eexists (rows t), _. split; [reflexivity | apply same_records_refl].
Qed.

Lemma grows_update now st i t :
  grows t
    (mkTable
       (List.map (fun r => if where_id i r then set_status now st r else r)
          (rows t))
       (auto_increment t)).
Proof.
  exists (List.map (fun r => if where_id i r then set_status now st r else r)
            (rows t)), [].
  split; [simpl; symmetry; apply app_nil_r | ].
  induction (rows t) as [ | r l IH ]; simpl; constructor; auto.
  destruct (where_id i r);
    [apply same_record_set_status | apply same_record_refl].
Qed.

Lemma grows_In t t' r :
  grows t t' -> In r (rows t) ->
  exists r', In r' (rows t') /\ same_record r r'.
Proof.
  intros (k & a & E & F) Hr. rewrite E. clear E.
  induction F as [ | x y l k Hxy F IH ]; [contradiction | ].
  destruct Hr as [<- | Hr].
  - exists y. split; [left; reflexivity | exact Hxy].
  - destruct (IH Hr) as (r' & Hin & Hs). exists r'. split; [right | ]; auto.
Qed.

Section Kept.

Variable collate : jstring -> jstring -> bool.

Lemma handle_grows now req c :
  grows (tbl c) (tbl (snd (handle collate now req c))).
Proof.
  apply handle_table_ind with (P := grows (tbl c)).
  - intros b _. apply grows_insert.
  - intros s i _. apply grows_update.
  - apply grows_refl.
Qed.

Lemma serve_grows log : forall c, grows (tbl c) (tbl (serve collate c log)).
Proof.
  induction log as [ | tr log IH ]; intros c; simpl.
  - apply grows_refl.
  - eapply grows_trans; [apply (handle_grows (fst tr) (snd tr)) | apply IH].
Qed.

(** X3.  No request deletes or rewrites a referral: after any run, the
    table starts with the rows it had, each with the id, the referrer,
    referee and course columns and the [created_at] it had before; only
    status and [updated_at] may differ, and new rows come after them. *)
Theorem referrals_never_deleted c log :
  grows (tbl c) (tbl (serve collate c log)) /\
  (length (rows (tbl c)) <= length (rows (tbl (serve collate c log))))%nat /\
  forall r,
    In r (rows (tbl c)) ->
    exists r', In r' (rows (tbl (serve collate c log))) /\ same_record r r'.
Proof.
  pose proof (serve_grows log c) as H.
  split; [exact H | split].
  - destruct H as (k & a & E & F). rewrite E, length_app.
    rewrite (Forall2_length _ _ _ F). lia.
  - intros r Hr. eapply grows_In; eauto.
Qed.

End Kept.

(** ** What is stored went through the create handler's tests *)

Lemma varchar_inv n s s' :
  varchar n s = Some s' ->
  (length s' <= n)%nat /\
  exists t, s = s' ++ t /\ forallb (N.eqb 32) t = true.
Proof.
  unfold varchar. destruct (length s <=? n)%nat eqn:E.
  - intros [= <-]. apply Nat.leb_le in E. split; [exact E | ].
    exists []. split; [symmetry; apply app_nil_r | reflexivity].
  - destruct (forallb (N.eqb 32) (skipn n s)) eqn:F; [ | discriminate ].
    intros [= <-]. split.
    + rewrite length_firstn. lia.
    + exists (skipn n s). split; [symmetry; apply firstn_skipn | exact F].
Qed.

Lemma varchar_nonempty n s s' :
  (0 < n)%nat -> s <> [] -> varchar n s = Some s' -> s' <> [].
Proof.
  intros Hn Hs. unfold varchar. destruct (length s <=? n)%nat.
  - intros [= <-]. exact Hs.
  - destruct (forallb (N.eqb 32) (skipn n s)); [ | discriminate ].
    intros [= <-]. destruct s; [congruence | ].
    destruct n; [lia | ]. simpl. discriminate.
Qed.

(** Cutting spaces off the end of a string keeps the email pattern in
    it: the pattern ends in a character that is not a space. *)
Lemma email_pattern_trim u t :
  forallb (N.eqb 32) t = true -> email_pattern (u ++ t) -> email_pattern u.
Proof.
  intros Ht (pre & x & y & z & post & E & Hx & Hy & Hz).
  replace (pre ++ x ++ [64%N] ++ y ++ [46%N] ++ z ++ post)
    with ((pre ++ x ++ [64%N] ++ y ++ [46%N] ++ z) ++ post) in E
    by (rewrite <- !app_assoc; reflexivity).
  apply app_eq_app in E as (l & [[Eu Ep] | [Em Et]]).
  - exists pre, x, y, z, l. split; [ | auto ].
    rewrite Eu, <- !app_assoc. reflexivity.
  - destruct l as [ | c0 l0 ].
    + exists pre, x, y, z, []. split; [ | auto ].
      rewrite app_nil_r in Em. rewrite <- Em, app_nil_r.
      reflexivity.
    + exfalso.
      destruct Hz as [Hzn Hzs].
      destruct (exists_last Hzn) as (z0 & c & ->).
      assert (Hl : c0 :: l0 <> []) by discriminate.
      destruct (exists_last Hl) as (l1 & c' & El). rewrite El in Em, Et.
      replace (pre ++ x ++ [64%N] ++ y ++ [46%N] ++ z0 ++ [c])
        with ((pre ++ x ++ [64%N] ++ y ++ [46%N] ++ z0) ++ [c]) in Em
        by (rewrite <- !app_assoc; reflexivity).
      rewrite (app_assoc u l1 [c']) in Em.
      apply app_inj_tail in Em as [_ Ec].
      subst c'.
      rewrite Et in Ht. rewrite !forallb_app in Ht.
      apply andb_true_iff in Ht as [Ht _].
      apply andb_true_iff in Ht as [_ Ht]. cbn [forallb] in Ht.
      rewrite andb_true_r in Ht. apply N.eqb_eq in Ht. subst c.
      apply List.Forall_app in Hzs as [_ Hc].
      apply List.Forall_inv in Hc. vm_compute in Hc. discriminate.
Qed.

Lemma varchar_email n s s' :
  email_pattern s -> varchar n s = Some s' -> email_pattern s'.
Proof.
  intros He Hv. apply varchar_inv in Hv as (_ & t & -> & Ht).
  eapply email_pattern_trim; eauto.
Qed.

Lemma stored_field n (b : body) k a :
  varchar_not_null n (b !! k) = Some a -> varchar n (field b k) = Some a.
Proof.
  unfold field. destruct (b !! k) as [s | ]; simpl; [auto | discriminate].
Qed.

Lemma present_field (b : body) k : present b k -> field b k <> [].
Proof. unfold field. intros (s & -> & Hs). exact Hs. Qed.

Lemma row_valid_same r r' : same_record r r' -> row_valid r -> row_valid r'.
Proof.
  unfold same_record, row_valid.
  intros (_ & -> & -> & -> & -> & -> & -> & -> & _). auto.
Qed.

(** The row a well-formed input becomes is valid. *)
Lemma insert_rows_valid now (b : body) t :
  well_formed_create b ->
  Forall row_valid (rows t) ->
  Forall row_valid
    (rows (snd (insert_referral now (b !! "referrerName")
                  (b !! "referrerEmail") (b !! "referrerPhone")
                  (b !! "refereeName") (b !! "refereeEmail")
                  (b !! "refereePhone") (b !! "course") t))).
Proof.
  intros (Hp & He1 & He2 & Hd1 & Hd2) Ht.
  destruct (insert_referral_cases now (b !! "referrerName")
              (b !! "referrerEmail") (b !! "referrerPhone")
              (b !! "refereeName") (b !! "refereeEmail")
              (b !! "refereePhone") (b !! "course") t)
    as [-> | (a1 & a2 & a3 & a4 & a5 & a6 & a7 &
              E1 & E2 & E3 & E4 & E5 & E6 & E7 & _ & ->)]; [exact Ht | ].
  cbn [snd rows]. apply Forall_app. split; [exact Ht | ].
  constructor; [ | constructor ].
  apply stored_field in E1, E2, E3, E4, E5, E6, E7.
  assert (P1 : field b "referrerName" <> [])
    by (apply present_field, Hp; simpl; auto 10).
  assert (P4 : field b "refereeName" <> [])
    by (apply present_field, Hp; simpl; auto 10).
  assert (P7 : field b "course" <> [])
    by (apply present_field, Hp; simpl; auto 10).
  assert (E3' : a3 = field b "referrerPhone").
  { destruct Hd1 as [L _]. rewrite varchar_fits in E3 by lia. congruence. }
  assert (E6' : a6 = field b "refereePhone").
  { destruct Hd2 as [L _]. rewrite varchar_fits in E6 by lia. congruence. }
  subst a3 a6.
  unfold row_valid. cbn.
  refine (conj _ (conj _ (conj _ (conj _ (conj _ (conj Hd1 (conj Hd2
            (conj _ (conj _ (conj _ (conj _ _))))))))))).
  - eapply varchar_nonempty; [ | exact P1 | exact E1 ]. lia.
  - eapply varchar_nonempty; [ | exact P4 | exact E4 ]. lia.
  - eapply varchar_nonempty; [ | exact P7 | exact E7 ]. lia.
  - exact (varchar_email _ _ _ He1 E2).
  - exact (varchar_email _ _ _ He2 E5).
  - exact (proj1 (varchar_inv _ _ _ E1)).
  - exact (proj1 (varchar_inv _ _ _ E2)).
  - exact (proj1 (varchar_inv _ _ _ E4)).
  - exact (proj1 (varchar_inv _ _ _ E5)).
  - exact (proj1 (varchar_inv _ _ _ E7)).
Qed.

Lemma update_rows_valid now st i l :
  Forall row_valid l ->
  Forall row_valid
    (List.map (fun r => if where_id i r then set_status now st r else r) l).
Proof.
  intros H. apply List.Forall_map. eapply List.Forall_impl; [ | exact H ].
  simpl. intros r Hr. destruct (where_id i r); [ | exact Hr ].
  eapply row_valid_same; [apply same_record_set_status | exact Hr].
Qed.

Section Stored.

Variable collate : jstring -> jstring -> bool.

(** X4.  In every state the server reaches through requests whose body
    fields are strings (the type of [body]), each stored referral passed
    the create handler's tests and fits its columns: names and course
    are not empty, both emails contain the email pattern, both phones
    are exactly ten digits, and names, emails and course have at most
    100 characters. *)
Theorem stored_rows_valid c r :
  reachable collate c -> In r (rows (tbl c)) -> row_valid r.
Proof.
  intros H Hr.
  assert (Hall : Forall row_valid (rows (tbl c))).
  { clear Hr. revert c H.
    apply (reachable_table_ind collate (fun t => Forall row_valid (rows t))).
    - constructor.
    - intros now b t Hw Ht. apply insert_rows_valid; assumption.
    - intros now s i t _ Ht. simpl. apply update_rows_valid. exact Ht. }
  rewrite List.Forall_forall in Hall. apply Hall. exact Hr.
Qed.

End Stored.

(** ** Timestamps *)

Lemma timely_later now0 now t : now0 <= now -> timely now0 t -> timely now t.
Proof.
  unfold timely. intros Hn H. eapply List.Forall_impl; [ | exact H ].
  simpl. intros r Hr. lia.
Qed.

Lemma timely_insert now a b c d e f g t :
  timely now t -> timely now (snd (insert_referral now a b c d e f g t)).
Proof.
  intros H.
  destruct (insert_referral_cases now a b c d e f g t)
    as [-> | (? & ? & ? & ? & ? & ? & ? & _ & _ & _ & _ & _ & _ & _ & _ & ->)];
    [exact H | ].
  unfold timely. cbn [snd rows]. apply Forall_app. split; [exact H | ].
  constructor; [simpl; lia | constructor].
Qed.

Lemma timely_update now st i t :
  timely now t ->
  timely now
    (mkTable
       (List.map (fun r => if where_id i r then set_status now st r else r)
          (rows t))
       (auto_increment t)).
Proof.
  unfold timely. cbn [rows]. intros H.
  apply List.Forall_map. eapply List.Forall_impl; [ | exact H ].
  simpl. intros r Hr. destruct (where_id i r); [ | exact Hr ].
  unfold set_status. destruct (bool_decide (status r = st)); [exact Hr | ].
  simpl. lia.
Qed.

Section Timestamps.

Variable collate : jstring -> jstring -> bool.

Lemma handle_timely now0 now req c :
  now0 <= now -> timely now0 (tbl c) ->
  timely now (tbl (snd (handle collate now req c))).
Proof.
  intros Hn H. apply (timely_later _ _ _ Hn) in H.
  apply handle_table_ind with (P := timely now).
  - intros b _. apply timely_insert. exact H.
  - intros s i _. apply timely_update. exact H.
  - exact H.
Qed.

Lemma serve_timely log :
  forall now0 c,
    timely now0 (tbl c) -> clock_from now0 log ->
    exists now1, timely now1 (tbl (serve collate c log)).
Proof.
  induction log as [ | tr log IH ]; intros now0 c H Hc; simpl.
  - exists now0. exact H.
  - destruct Hc as [Hn Hc].
    apply (IH (fst tr)); [ | exact Hc ].
    apply (handle_timely now0); assumption.
Qed.

(** X5.  While the server's clock does not go back, no referral is ever
    updated before it was created: after any run whose requests carry
    non-decreasing times, from a table where this held,
    [created_at <= updated_at] on every row. *)
Theorem timestamps_ordered now0 c log r :
  timely now0 (tbl c) -> clock_from now0 log ->
  In r (rows (tbl (serve collate c log))) ->
  created_at r <= updated_at r.
Proof.
  intros H Hc Hr. destruct (serve_timely log now0 c H Hc) as (now1 & H1).
  unfold timely in H1. rewrite List.Forall_forall in H1.
  specialize (H1 r Hr). lia.
Qed.

End Timestamps.

(** ** More on the status handler *)

Lemma same_records_update now st i l :
  Forall2 same_record l
    (List.map (fun r => if where_id i r then set_status now st r else r) l).
Proof.
  induction l as [ | r l IH ]; simpl; constructor; auto.
  destruct (where_id i r);
    [apply same_record_set_status | apply same_record_refl].
Qed.

Lemma same_records_ids l l' :
  Forall2 same_record l l' -> List.map id l' = List.map id l.
Proof.
  induction 1 as [ | r r' l l' (E & _) _ IH ]; simpl; congruence.
Qed.



Lemma set_status_twice now1 now2 s r :
  set_status now2 (Some s) (set_status now1 (Some s) r) =
  set_status now1 (Some s) r.
Proof.
  rewrite (set_status_with_status now1). unfold set_status at 1.
  rewrite bool_decide_eq_true_2; reflexivity.
Qed.

Section StatusUpdate.

Variable collate : jstring -> jstring -> bool.

(** The table after an update with one of the four literals. *)
Lemma updateReferralStatus_valid_table now i (b : body) c s :
  b !! "status" = Some s -> status_literal s ->
  tbl (snd (updateReferralStatus collate now i b c)) =
  mkTable
    (List.map (fun r => if where_id i r then set_status now (Some s) r else r)
       (rows (tbl c)))
    (auto_increment (tbl c)).
Proof.
  intros E Hs. rewrite (updateReferralStatus_valid collate now i b c s E Hs).
  pose proof (tbl_db_query collate now (UpdateStatus (Some s) (Key i)) c) as Et.
  simpl in Et. rewrite update_status_valid in Et by assumption. simpl in Et.
  destruct (db_query collate now (UpdateStatus (Some s) (Key i)) c) as [[ | r] c'];
    simpl in Et; [ | destruct (bool_decide _) ]; simpl; exact Et.
Qed.

Lemma status_cases (b : body) :
  (exists s, b !! "status" = Some s /\ status_literal s) \/
  ~ (exists s, b !! "status" = Some s /\ status_literal s).
Proof.
  destruct (falsy (b !! "status") ||
            negb (includes
                    [lit "pending"; lit "contacted"; lit "enrolled";
                     lit "completed"] (b !! "status"))) eqn:E.
  - right. intros H. apply status_check in H. congruence.
  - left. apply status_check. exact E.
Qed.

(** X6.  A status update adds no row and removes none: whatever the
    request, the table afterwards has the same rows in the same places,
    each with its id, referrer, referee and course columns and
    [created_at] unchanged, and the same key counter. *)
Theorem update_adds_and_removes_nothing now i (b : body) c :
  Forall2 same_record (rows (tbl c))
    (rows (tbl (snd (updateReferralStatus collate now i b c)))) /\
  List.map id (rows (tbl (snd (updateReferralStatus collate now i b c)))) =
    List.map id (rows (tbl c)) /\
  auto_increment (tbl (snd (updateReferralStatus collate now i b c))) =
    auto_increment (tbl c).
Proof.
  assert (H : Forall2 same_record (rows (tbl c))
                (rows (tbl (snd (updateReferralStatus collate now i b c)))) /\
              auto_increment
                (tbl (snd (updateReferralStatus collate now i b c))) =
              auto_increment (tbl c)).
  { destruct (updateReferralStatus_table collate now i b c)
      as [-> | (s & _ & _ & ->)].
    - split; [apply same_records_refl | reflexivity].
    - split; [apply same_records_update | reflexivity]. }
  destruct H as [H1 H2].
  split; [exact H1 | split; [ | exact H2 ] ].
  apply same_records_ids. exact H1.
Qed.

(** With the id read as a key, the UPDATE is never refused by the table
    and a 404 leaves the table as it was. *)
Lemma updateReferralStatus_not_found now i (b : body) c :
  code (fst (updateReferralStatus collate now i b c)) <> 500 /\
  (code (fst (updateReferralStatus collate now i b c)) = 404 ->
   tbl (snd (updateReferralStatus collate now i b c)) = tbl c).
Proof.
  destruct (status_cases b) as [(s & E & Hs) | Hn].
  - rewrite (updateReferralStatus_valid_table now i b c s E Hs).
    rewrite (updateReferralStatus_valid collate now i b c s E Hs).
    unfold db_query, execute. rewrite update_status_valid by assumption.
    cbn [affectedRows fst].
    destruct (List.filter (where_id i) (rows (tbl c))) as [ | r l ] eqn:Ef.
    + simpl. split; [discriminate | ]. intros _.
      rewrite map_untouched.
      * destruct (tbl c). reflexivity.
      * intros x Hx. apply where_id_false.
        apply (proj1 (filter_none _ _) Ef). exact Hx.
    + rewrite bool_decide_eq_false_2 by (simpl; intros [= Hz]; lia).
      simpl. split; discriminate.
  - rewrite (updateReferralStatus_refuses collate now i b c Hn). simpl.
    split; [discriminate | reflexivity].
Qed.

(** X8.  No transition is barred: with a valid status [s], every row
    with the given id ends with status [s] whatever its status was, and
    a row with another id is not touched. *)
Theorem update_sets_status_from_any now i (b : body) c s r :
  b !! "status" = Some s -> status_literal s ->
  In r (rows (tbl c)) ->
  (id r = i ->
   In (with_status now s r)
     (rows (tbl (snd (updateReferralStatus collate now i b c))))) /\
  (id r <> i ->
   In r (rows (tbl (snd (updateReferralStatus collate now i b c))))).
Proof.
  intros E Hs Hr.
  rewrite (updateReferralStatus_valid_table now i b c s E Hs). cbn [rows].
  split; intros Hi.
  - rewrite <- set_status_with_status. apply in_map_iff. exists r.
    rewrite (proj2 (where_id_true i r) Hi). auto.
  - apply in_map_iff. exists r.
    rewrite (proj2 (where_id_false i r) Hi). auto.
Qed.

(** X9.  Repeating a status update changes nothing more: the same
    request served again, at any later time, leaves the table as the
    first one left it, [updated_at] included. *)
Theorem update_twice_is_once now1 now2 i (b : body) c :
  tbl (snd (updateReferralStatus collate now2 i b
              (snd (updateReferralStatus collate now1 i b c)))) =
  tbl (snd (updateReferralStatus collate now1 i b c)).
Proof.
  destruct (status_cases b) as [(s & E & Hs) | Hn].
  - rewrite (updateReferralStatus_valid_table now2 i b _ s E Hs).
    rewrite (updateReferralStatus_valid_table now1 i b c s E Hs).
    cbn [rows auto_increment]. f_equal.
    rewrite map_map. apply map_ext. intros r.
    destruct (where_id i r) eqn:Ei.
    + assert (Ei' : where_id i (set_status now1 (Some s) r) = true).
      { rewrite set_status_with_status. exact Ei. }
      rewrite Ei'. apply set_status_twice.
    + rewrite Ei. reflexivity.
  - rewrite !(updateReferralStatus_refuses collate _ i b _ Hn). reflexivity.
Qed.


End StatusUpdate.

(** ** More on the statistics *)

Lemma case_status_decide x r :
  case_status x r = if bool_decide (status r = Some x) then 1 else 0.
Proof.
  unfold case_status, jstring_eqb. destruct (status r) as [s | ].
  - destruct (bool_decide (s = x)) eqn:E.
    + apply bool_decide_eq_true in E. subst s.
      rewrite bool_decide_eq_true_2; reflexivity.
    + apply bool_decide_eq_false in E.
      rewrite bool_decide_eq_false_2; [reflexivity | congruence].
  - rewrite bool_decide_eq_false_2; [reflexivity | discriminate].
Qed.

(** SUM(CASE WHEN status = 'x' THEN 1 ELSE 0 END) counts the rows of
    status x. *)
Lemma sum_case_status_count x l :
  fold_right Z.add 0 (List.map (case_status x) l) = count_status x l.
Proof.
  unfold count_status. induction l as [ | r l IH ]; [reflexivity | ].
  cbn [List.map fold_right List.filter]. rewrite IH, case_status_decide.
  destruct (bool_decide (status r = Some x)); cbn [length]; lia.
Qed.

Lemma count_status_app x l r :
  count_status x (l ++ [r]) =
  count_status x l + (if bool_decide (status r = Some x) then 1 else 0).
Proof.
  unfold count_status. rewrite List.filter_app, length_app. simpl.
  destruct (bool_decide (status r = Some x)); simpl; lia.
Qed.

Lemma select_statistics_counts t :
  rows t <> [] ->
  select_statistics t =
  StatisticsRow (Z.of_nat (length (rows t)))
    (Some (decimal_text (count_status (lit "pending") (rows t))))
    (Some (decimal_text (count_status (lit "contacted") (rows t))))
    (Some (decimal_text (count_status (lit "enrolled") (rows t))))
    (Some (decimal_text (count_status (lit "completed") (rows t)))).
Proof.
  intros Hn. unfold select_statistics.
  rewrite <- !sum_case_status_count.
  destruct (rows t) as [ | r l ]; [congruence | reflexivity].
Qed.

Lemma count_status_nonneg x l : 0 <= count_status x l.
Proof. unfold count_status. lia. Qed.

Lemma count_status_total l :
  Forall status_valid l ->
  count_status (lit "pending") l + count_status (lit "contacted") l +
  count_status (lit "enrolled") l + count_status (lit "completed") l =
  Z.of_nat (length l).
Proof.
  intros H. rewrite <- !sum_case_status_count.
  apply sum_case_status_total. exact H.
Qed.

Section MoreStatistics.

Variable collate : jstring -> jstring -> bool.

(** X11.  On a table with at least one row the statistics are counts:
    the total is the number of rows, as a number, and each of the four
    status figures is the number of rows with that status, as the
    driver hands a DECIMAL over: the text of its decimal digits. *)
Theorem statistics_are_counts now c :
  rows (tbl c) <> [] ->
  fst (getStatistics collate now c) =
  mkResponse 200
    (JResults
       (StatisticsRow (Z.of_nat (length (rows (tbl c))))
          (Some (decimal_text (count_status (lit "pending") (rows (tbl c)))))
          (Some (decimal_text (count_status (lit "contacted") (rows (tbl c)))))
          (Some (decimal_text (count_status (lit "enrolled") (rows (tbl c)))))
          (Some (decimal_text (count_status (lit "completed") (rows (tbl c))))))).
Proof.
  intros Hn. unfold getStatistics, db_query, execute. cbn [fst].
  rewrite select_statistics_counts by assumption. reflexivity.
Qed.

(** X12.  In every state the server reaches with at least one referral
    stored, the total is a non-negative number and the four status
    figures are the decimal texts of non-negative integers (the counts
    of rows by status) that add up to the total. *)
Theorem statistics_sum_to_total now c :
  reachable collate c -> rows (tbl c) <> [] ->
  exists p q e d,
    fst (getStatistics collate now c) =
      mkResponse 200
        (JResults (StatisticsRow (Z.of_nat (length (rows (tbl c))))
                     (Some (decimal_text p)) (Some (decimal_text q))
                     (Some (decimal_text e)) (Some (decimal_text d)))) /\
    p = count_status (lit "pending") (rows (tbl c)) /\
    q = count_status (lit "contacted") (rows (tbl c)) /\
    e = count_status (lit "enrolled") (rows (tbl c)) /\
    d = count_status (lit "completed") (rows (tbl c)) /\
    0 <= p /\ 0 <= q /\ 0 <= e /\ 0 <= d /\
    p + q + e + d = Z.of_nat (length (rows (tbl c))).
Proof.
  intros H Hn. destruct (reachable_ok collate c H) as (_ & _ & _ & Hs).
  exists (count_status (lit "pending") (rows (tbl c))),
         (count_status (lit "contacted") (rows (tbl c))),
         (count_status (lit "enrolled") (rows (tbl c))),
         (count_status (lit "completed") (rows (tbl c))).
  split.
  - unfold getStatistics, db_query, execute. cbn [fst].
    rewrite select_statistics_counts by assumption. reflexivity.
  - repeat split; try apply count_status_nonneg.
    apply count_status_total. exact Hs.
Qed.

(** X13.  A create answered 201 shows in the next statistics: the total
    is the number of rows before it plus one, the pending figure is the
    text of the number of pending rows before it plus one, and the other
    three figures are the texts of the numbers of contacted, enrolled
    and completed rows before it.  (After the first create on the empty
    table they are 1 and the texts 1, 0, 0, 0, where the figures before
    were null.) *)
Theorem create_then_statistics now now' (b : body) c :
  code (fst (createReferral collate now b c)) = 201 ->
  fst (getStatistics collate now' (snd (createReferral collate now b c))) =
  mkResponse 200
    (JResults
       (StatisticsRow (Z.of_nat (length (rows (tbl c))) + 1)
          (Some (decimal_text
                   (count_status (lit "pending") (rows (tbl c)) + 1)))
          (Some (decimal_text
                   (count_status (lit "contacted") (rows (tbl c)))))
          (Some (decimal_text
                   (count_status (lit "enrolled") (rows (tbl c)))))
          (Some (decimal_text
                   (count_status (lit "completed") (rows (tbl c))))))).
Proof.
  intros E.
  destruct (createReferral_created collate now b c E) as (r & Hr & Hs & _).
  unfold getStatistics, db_query, execute. cbn [fst].
  rewrite select_statistics_counts
    by (rewrite Hr; destruct (rows (tbl c)); discriminate).
  rewrite Hr, length_app, !count_status_app, Hs. cbn [length].
  rewrite bool_decide_eq_true_2 by reflexivity.
  rewrite !bool_decide_eq_false_2 by (vm_compute; discriminate).
  rewrite !Z.add_0_r. repeat f_equal. lia.
Qed.

End MoreStatistics.

(** ** More on the create handler *)

Section MoreCreate.

Variable collate : jstring -> jstring -> bool.

Lemma sent_db_query now q c :
  sent (snd (db_query collate now q c)) = sent c ++ [q].
Proof.
  unfold db_query. destruct (execute collate now q (tbl c)). reflexivity.
Qed.

(** The table after an accepted create. *)
Lemma createReferral_accepted_table now (b : body) c :
  well_formed_create b -> fits_columns b ->
  auto_increment (tbl c) <= INT_MAX ->
  tbl (snd (createReferral collate now b c)) =
  mkTable (rows (tbl c) ++ [new_referral (auto_increment (tbl c)) now b])
    (auto_increment (tbl c) + 1).
Proof.
  intros Hw Hf Hi. pose proof Hw as (Hp & He1 & He2 & Hd1 & Hd2).
  rewrite createReferral_insert by assumption.
  unfold db_query, execute. rewrite insert_accepted by assumption.
  reflexivity.
Qed.

(** X14.  A referral just created is found under its referrer's email:
    after a create of an input that is well formed and fits the table,
    the listing by that referrer email (compared equal to itself by the
    server) answers 200 with rows that include the new one. *)
Theorem create_then_list_by_referrer now now' (b : body) c :
  well_formed_create b -> fits_columns b ->
  auto_increment (tbl c) <= INT_MAX ->
  collate (field b "referrerEmail") (field b "referrerEmail") = true ->
  exists rs,
    fst (getReferralsByReferrer collate now' (field b "referrerEmail")
           (snd (createReferral collate now b c))) =
      mkResponse 200 (JResults (RowSet rs)) /\
    In (new_referral (auto_increment (tbl c)) now b) rs.
Proof.
  intros Hw Hf Hi Hc. eexists. split.
  - unfold getReferralsByReferrer, db_query, execute. cbn [fst]. reflexivity.
  - rewrite (createReferral_accepted_table now b c Hw Hf Hi). cbn [rows].
    apply OrderBy.order_by_In. apply filter_In. split.
    + apply in_or_app. right. left. reflexivity.
    + exact Hc.
Qed.

(** X15.  The create handler answers 201, 400 or 500 and nothing else;
    400 exactly when the input fails one of the three rules; a 201 is
    only ever given to a well-formed input; and a 500 leaves the table
    as it was. *)
Theorem create_response_classified now (b : body) c :
  (code (fst (createReferral collate now b c)) = 201 \/
   code (fst (createReferral collate now b c)) = 400 \/
   code (fst (createReferral collate now b c)) = 500) /\
  (code (fst (createReferral collate now b c)) = 400 <->
   ~ well_formed_create b) /\
  (code (fst (createReferral collate now b c)) = 201 ->
   well_formed_create b) /\
  (code (fst (createReferral collate now b c)) = 500 ->
   tbl (snd (createReferral collate now b c)) = tbl c).
Proof.
  assert (Hcases :
            (~ well_formed_create b /\
             code (fst (createReferral collate now b c)) = 400) \/
            (well_formed_create b /\
             (code (fst (createReferral collate now b c)) = 201 \/
              code (fst (createReferral collate now b c)) = 500 /\
              tbl (snd (createReferral collate now b c)) = tbl c))).
  { destruct (falsy (b !! "referrerName") || falsy (b !! "referrerEmail") ||
              falsy (b !! "referrerPhone") || falsy (b !! "refereeName") ||
              falsy (b !! "refereeEmail") || falsy (b !! "refereePhone") ||
              falsy (b !! "course")) eqn:E1.
    { left. split.
      - intros (Hp & _). apply required_check in Hp. congruence.
      - unfold createReferral. cbv zeta. rewrite E1. reflexivity. }
    pose proof (proj1 (required_check b) E1) as Hp.
    destruct (negb (test emailRegex (to_string (b !! "referrerEmail"))) ||
              negb (test emailRegex (to_string (b !! "refereeEmail"))))
      eqn:E2.
    { left. split.
      - intros (_ & He1 & He2 & _).
        rewrite (proj2 (email_check b) (conj He1 He2)) in E2. discriminate.
      - unfold createReferral. cbv zeta. rewrite E1, E2. reflexivity. }
    apply email_check in E2 as [He1 He2].
    destruct (negb (test phoneRegex (to_string (b !! "referrerPhone"))) ||
              negb (test phoneRegex (to_string (b !! "refereePhone"))))
      eqn:E3.
    { left. split.
      - intros (_ & _ & _ & Hd1 & Hd2).
        rewrite (proj2 (phone_check b) (conj Hd1 Hd2)) in E3. discriminate.
      - unfold createReferral. cbv zeta.
        rewrite E1, (proj2 (email_check b) (conj He1 He2)), E3. reflexivity. }
    apply phone_check in E3 as [Hd1 Hd2].
    right. split; [unfold well_formed_create; auto | ].
    rewrite createReferral_insert by assumption.
    unfold db_query, execute.
    destruct (insert_referral_cases now (b !! "referrerName")
                (b !! "referrerEmail") (b !! "referrerPhone")
                (b !! "refereeName") (b !! "refereeEmail")
                (b !! "refereePhone") (b !! "course") (tbl c))
      as [Hs | (? & ? & ? & ? & ? & ? & ? & _ & _ & _ & _ & _ & _ & _ & _ & Hs)].
    - destruct (insert_referral now _ _ _ _ _ _ _ (tbl c)) as [[ | r] t'];
        simpl in Hs; subst t'; simpl; auto.
    - rewrite Hs. simpl. auto. }
  destruct Hcases as [[Hn E] | [Hw [E | [E Ht]]]]; rewrite E;
    (split; [auto | split; [split | split] ]);
    auto; try discriminate; try (intros; contradiction).
Qed.

(** The status handler on any path token: a 400 leaves the connection,
    any other answer comes after exactly one statement. *)
Lemma patchReferral_statements read_key now token (b : body) c :
  (code (fst (patchReferral collate read_key now token b c)) = 400 ->
   snd (patchReferral collate read_key now token b c) = c) /\
  (code (fst (patchReferral collate read_key now token b c)) <> 400 ->
   exists q,
     sent (snd (patchReferral collate read_key now token b c)) =
     sent c ++ [q]).
Proof.
  unfold patchReferral. cbv zeta.
  destruct (falsy (b !! "status") || negb (includes _ (b !! "status"))).
  - split; [reflexivity | simpl; congruence].
  - match goal with
    | |- context [db_query collate now ?q c] =>
        pose proof (sent_db_query now q c) as E;
        destruct (db_query collate now q c) as [[ | r] c']
    end; [ | destruct (bool_decide _) ]; simpl in E |- *;
      (split; [discriminate | eauto]).
Qed.

(** X16.  A request sends at most one statement.  A 400, and the
    router's own 404 for an empty path parameter, send none and leave
    the connection as it was; every other answer comes after exactly
    one statement, and so for a PATCH whatever its path token is.  The
    three GET routes never change the table. *)
Theorem one_statement_per_request now req c :
  (code (fst (handle collate now req c)) = 400 \/
   payload (fst (handle collate now req c)) = JNoRoute ->
   snd (handle collate now req c) = c) /\
  (code (fst (handle collate now req c)) <> 400 ->
   payload (fst (handle collate now req c)) <> JNoRoute ->
   exists q, sent (snd (handle collate now req c)) = sent c ++ [q]) /\
  match req with
  | PostReferral _ => True
  | PatchReferral _ b =>
      forall read_key token,
        (code (fst (patchReferral collate read_key now token b c)) = 400 ->
         snd (patchReferral collate read_key now token b c) = c) /\
        (code (fst (patchReferral collate read_key now token b c)) <> 400 ->
         exists q,
           sent (snd (patchReferral collate read_key now token b c)) =
           sent c ++ [q])
  | _ => tbl (snd (handle collate now req c)) = tbl c
  end.
Proof.
  destruct req as [ | [ | ch email] | b | i b | ]; cbn [handle].
  - split; [intros [H | H]; discriminate | split; [ | reflexivity ] ].
    intros _ _. eexists. apply (sent_db_query now SelectAll c).
  - split; [reflexivity | split; [ | reflexivity ] ].
    simpl. congruence.
  - split; [intros [H | H]; discriminate | split; [ | reflexivity ] ].
    intros _ _. eexists.
    apply (sent_db_query now (SelectByReferrer (ch :: email)) c).
  - split; [ | split; [ | exact I ] ].
    + intros [H | H]; [apply createReferral_refusal; exact H | ].
      exfalso. revert H. unfold createReferral. cbv zeta.
      repeat match goal with
             | |- context [if ?x then _ else _] =>
                 destruct x; [simpl; discriminate | ]
             end.
      destruct (db_query collate now _ c) as [[ | r] c']; simpl; discriminate.
    + unfold createReferral. cbv zeta.
      repeat match goal with
             | |- context [if ?x then _ else _] =>
                 destruct x; [simpl; congruence | ]
             end.
      intros _ _.
      match goal with
      | |- context [db_query collate now ?q c] =>
          pose proof (sent_db_query now q c) as E;
          destruct (db_query collate now q c) as [[ | r] c']
      end; simpl in E |- *; eauto.
  - split; [ | split; [ | intros read_key token;
                          apply patchReferral_statements ] ].
    + unfold updateReferralStatus. cbv zeta.
      destruct (falsy (b !! "status") || negb (includes _ (b !! "status")));
        [reflexivity | ].
      destruct (db_query collate now _ c) as [[ | r] c'];
        [ | destruct (bool_decide _) ]; simpl;
        intros [H | H]; discriminate.
    + unfold updateReferralStatus. cbv zeta.
      destruct (falsy (b !! "status") || negb (includes _ (b !! "status")));
        [simpl; congruence | ].
      intros _ _.
      match goal with
      | |- context [db_query collate now ?q c] =>
          pose proof (sent_db_query now q c) as E;
          destruct (db_query collate now q c) as [[ | r] c']
      end; [ | destruct (bool_decide _) ]; simpl in E |- *; eauto.
  - split; [intros [H | H]; discriminate | split; [ | reflexivity ] ].
    intros _ _. eexists. apply (sent_db_query now SelectStatistics c).
Qed.

End MoreCreate.

(** ** More on the two patterns *)

(** X17.  [phoneRegex] accepts a string exactly when it is ten
    characters, each one of the digits 0 to 9: nothing may precede or
    follow them. *)
Theorem phone_test_exactly_ten_digits s :
  test phoneRegex s = true <-> ten_digits s.
Proof. apply Patterns.phoneRegex_spec. Qed.

(** X18.  [emailRegex] accepts a string exactly when somewhere in it
    there are one or more non-space characters, an [@], one or more
    non-space characters, a dot, and one or more non-space characters. *)
Theorem email_test_is_pattern_search s :
  test emailRegex s = true <-> email_pattern s.
Proof. apply Patterns.emailRegex_spec. Qed.

(** X19.  [emailRegex] is not anchored: a string it accepts is still
    accepted with any text put before and after it, white space
    included. *)
Theorem email_accepted_inside_any_text pre s post :
  test emailRegex s = true -> test emailRegex (pre ++ s ++ post) = true.
Proof.
  rewrite !Patterns.emailRegex_spec.
  intros (p & x & y & z & q & -> & H).
  exists (pre ++ p), x, y, z, (q ++ post). split; [ | exact H ].
  rewrite <- !app_assoc. simpl. rewrite <- ?app_assoc. reflexivity.
Qed.

(** ** The further properties on the sample requests *)

Lemma initial_reachable : reachable binary initial.
Proof. apply rtc_refl. Qed.

Lemma one_referral_nonempty : rows (tbl one_referral) <> [].
Proof. discriminate. Qed.

Lemma sample_created :
  fst (createReferral binary 100 sample_body initial) =
  mkResponse 201 (JCreated (Some 1) "Referral created successfully").
Proof. vm_compute. reflexivity. Qed.

Lemma completed_literal : status_literal (lit "completed").
Proof. right. right. right. reflexivity. Qed.

Lemma status_body_completed :
  status_body "completed" !! "status" = Some (lit "completed").
Proof. vm_compute. reflexivity. Qed.

Lemma ids_unique_and_in_range_sample :
  reachable binary one_referral /\
  primary_key (tbl one_referral) /\
  forall r, In r (rows (tbl one_referral)) -> 1 <= id r <= INT_MAX.
Proof.
  split; [exact one_referral_reachable | ].
  exact (ids_unique_and_in_range binary one_referral one_referral_reachable).
Defined.

Lemma created_ids_increase_sample :
  reachable binary initial /\
  fst (createReferral binary 100 sample_body initial) =
    mkResponse 201 (JCreated (Some 1) "Referral created successfully") /\
  (1 <= 1 <= INT_MAX) /\
  (forall r, In r (rows (tbl initial)) -> id r < 1) /\
  forall log now' (b' : body) j m',
    fst (createReferral binary now' b'
           (serve binary (snd (createReferral binary 100 sample_body initial))
              log)) =
      mkResponse 201 (JCreated (Some j) m') ->
    1 < j.
Proof.
  split; [exact initial_reachable | ].
  split; [exact sample_created | ].
  exact (created_ids_increase binary 100 sample_body initial 1 _
           initial_reachable sample_created).
Defined.

Lemma stored_rows_valid_sample :
  reachable binary one_referral /\
  In (new_referral 1 100 sample_body) (rows (tbl one_referral)) /\
  row_valid (new_referral 1 100 sample_body).
Proof.
  assert (Hin : In (new_referral 1 100 sample_body) (rows (tbl one_referral)))
    by (left; reflexivity).
  split; [exact one_referral_reachable | ].
  split; [exact Hin | ].
  exact (stored_rows_valid binary one_referral _ one_referral_reachable Hin).
Defined.

Lemma timestamps_ordered_sample :
  timely 0 (tbl initial) /\ clock_from 0 sample_run /\
  In (with_status 200 (lit "completed") (new_referral 1 100 sample_body))
    (rows (tbl (serve binary initial sample_run))) /\
  created_at (with_status 200 (lit "completed") (new_referral 1 100 sample_body))
  <= updated_at
       (with_status 200 (lit "completed") (new_referral 1 100 sample_body)).
Proof.
  assert (H0 : timely 0 (tbl initial)) by constructor.
  assert (Hc : clock_from 0 sample_run) by (simpl; lia).
  assert (Hin : In (with_status 200 (lit "completed")
                      (new_referral 1 100 sample_body))
                  (rows (tbl (serve binary initial sample_run))))
    by (vm_compute; left; reflexivity).
  split; [exact H0 | ]. split; [exact Hc | ]. split; [exact Hin | ].
  exact (timestamps_ordered binary 0 initial sample_run _ H0 Hc Hin).
Defined.

Lemma update_sets_status_from_any_sample :
  status_body "completed" !! "status" = Some (lit "completed") /\
  status_literal (lit "completed") /\
  In (new_referral 1 100 sample_body) (rows (tbl one_referral)) /\
  In (with_status 200 (lit "completed") (new_referral 1 100 sample_body))
    (rows (tbl (snd (updateReferralStatus binary 200 1
                       (status_body "completed") one_referral)))).
Proof.
  assert (Hin : In (new_referral 1 100 sample_body) (rows (tbl one_referral)))
    by (left; reflexivity).
  split; [exact status_body_completed | ].
  split; [exact completed_literal | ].
  split; [exact Hin | ].
  apply (proj1 (update_sets_status_from_any binary 200 1
                  (status_body "completed") one_referral (lit "completed") _
                  status_body_completed completed_literal Hin)).
  reflexivity.
Defined.

Lemma statistics_are_counts_sample :
  rows (tbl one_referral) <> [] /\
  fst (getStatistics binary 300 one_referral) =
  mkResponse 200
    (JResults
       (StatisticsRow 1 (Some (lit "1")) (Some (lit "0")) (Some (lit "0"))
          (Some (lit "0")))).
Proof.
  split; [exact one_referral_nonempty | ].
  rewrite (statistics_are_counts binary 300 one_referral one_referral_nonempty).
  vm_compute. reflexivity.
Defined.

Lemma statistics_sum_to_total_sample :
  reachable binary one_referral /\ rows (tbl one_referral) <> [] /\
  exists p q e d,
    fst (getStatistics binary 300 one_referral) =
      mkResponse 200
        (JResults (StatisticsRow (Z.of_nat (length (rows (tbl one_referral))))
                     (Some (decimal_text p)) (Some (decimal_text q))
                     (Some (decimal_text e)) (Some (decimal_text d)))) /\
    p = count_status (lit "pending") (rows (tbl one_referral)) /\
    q = count_status (lit "contacted") (rows (tbl one_referral)) /\
    e = count_status (lit "enrolled") (rows (tbl one_referral)) /\
    d = count_status (lit "completed") (rows (tbl one_referral)) /\
    0 <= p /\ 0 <= q /\ 0 <= e /\ 0 <= d /\
    p + q + e + d = Z.of_nat (length (rows (tbl one_referral))).
Proof.
  split; [exact one_referral_reachable | ].
  split; [exact one_referral_nonempty | ].
  exact (statistics_sum_to_total binary 300 one_referral
           one_referral_reachable one_referral_nonempty).
Defined.

Lemma create_then_statistics_sample :
  code (fst (createReferral binary 100 sample_body initial)) = 201 /\
  fst (getStatistics binary 300
         (snd (createReferral binary 100 sample_body initial))) =
  mkResponse 200
    (JResults
       (StatisticsRow 1 (Some (lit "1")) (Some (lit "0")) (Some (lit "0"))
          (Some (lit "0")))).
Proof.
  assert (E : code (fst (createReferral binary 100 sample_body initial)) = 201)
    by (vm_compute; reflexivity).
  split; [exact E | ].
  rewrite (create_then_statistics binary 100 300 sample_body initial E).
  vm_compute. reflexivity.
Defined.

Lemma create_then_list_by_referrer_sample :
  well_formed_create sample_body /\ fits_columns sample_body /\
  auto_increment (tbl initial) <= INT_MAX /\
  binary (field sample_body "referrerEmail")
    (field sample_body "referrerEmail") = true /\
  exists rs,
    fst (getReferralsByReferrer binary 300 (field sample_body "referrerEmail")
           (snd (createReferral binary 100 sample_body initial))) =
      mkResponse 200 (JResults (RowSet rs)) /\
    In (new_referral (auto_increment (tbl initial)) 100 sample_body) rs.
Proof.
  assert (Hi : auto_increment (tbl initial) <= INT_MAX)
    by (vm_compute; discriminate).
  assert (Hc : binary (field sample_body "referrerEmail")
                 (field sample_body "referrerEmail") = true)
    by (vm_compute; reflexivity).
  split; [exact sample_well_formed | ].
  split; [exact sample_fits | ].
  split; [exact Hi | ].
  split; [exact Hc | ].
  exact (create_then_list_by_referrer binary 100 300 sample_body initial
           sample_well_formed sample_fits Hi Hc).
Defined.

Lemma email_accepted_inside_any_text_sample :
  test emailRegex (lit "a@b.c") = true /\
  test emailRegex (lit "  " ++ lit "a@b.c" ++ lit " now") = true.
Proof.
  assert (H : test emailRegex (lit "a@b.c") = true)
    by (vm_compute; reflexivity).
  split; [exact H | ].
  exact (email_accepted_inside_any_text (lit "  ") (lit "a@b.c") (lit " now") H).
Defined.

(** ** The status handler on the path token *)

Section PathToken.

Variable collate : jstring -> jstring -> bool.
Variable read_key : jstring -> key_reading.

(** A token the server reads as a key is served as that key. *)
Lemma patchReferral_key now token i (b : body) c :
  read_key token = Key i ->
  patchReferral collate read_key now token b c =
  updateReferralStatus collate now i b c.
Proof.
  intros E. unfold patchReferral, updateReferralStatus. rewrite E.
  reflexivity.
Qed.

(** A token read as a number that is no key finds no row. *)
Lemma patchReferral_no_key now token (b : body) c :
  read_key token = NoKey ->
  (code (fst (patchReferral collate read_key now token b c)) = 400 \/
   code (fst (patchReferral collate read_key now token b c)) = 404) /\
  tbl (snd (patchReferral collate read_key now token b c)) = tbl c.
Proof.
  intros E. unfold patchReferral. cbv zeta. rewrite E.
  destruct (falsy (b !! "status") || negb (includes _ (b !! "status")));
    simpl; auto.
Qed.

(** A token the server does not read as a number is refused. *)
Lemma patchReferral_refused now token (b : body) c :
  read_key token = Refused ->
  (code (fst (patchReferral collate read_key now token b c)) = 400 \/
   fst (patchReferral collate read_key now token b c) =
     mkResponse 500 (JError "Failed to update referral status")) /\
  tbl (snd (patchReferral collate read_key now token b c)) = tbl c.
Proof.
  intros E. unfold patchReferral. cbv zeta. rewrite E.
  destruct (falsy (b !! "status") || negb (includes _ (b !! "status")));
    simpl; auto.
Qed.

(** C5, amended.  For an update request with a valid status [s] whose
    path id the server reads as the integer [i]: the UPDATE reports the
    number of rows with id [i]; it is 0 exactly when there is none, the
    answer is then 404 "Referral not found" and the table stays as it
    was; it is 1 exactly when there is one such row, and any number other
    than 0 answers 200.  Afterwards every row with id [i] is that row
    with status [s] (and [updated_at] as the column rule sets it) and
    every other row is as before, so an id that exists is always
    updated; under the primary key the number is 0 or 1. *)
Theorem update_found_or_not now token i (b : body) c s :
  b !! "status" = Some s -> status_literal s ->
  read_key token = Key i ->
  let n := Z.of_nat (length (List.filter (where_id i) (rows (tbl c)))) in
  let c' := snd (patchReferral collate read_key now token b c) in
  fst (db_query collate now (UpdateStatus (Some s) (read_key token)) c) =
    Ok (ResultHeader 0 n) /\
  (n = 0 <-> forall r, In r (rows (tbl c)) -> id r <> i) /\
  (n = 1 <->
   exists l1 r l2,
     rows (tbl c) = l1 ++ r :: l2 /\ id r = i /\
     forall x, In x (l1 ++ l2) -> id x <> i) /\
  fst (patchReferral collate read_key now token b c) =
    (if n =? 0
     then mkResponse 404 (JError "Referral not found")
     else mkResponse 200 (JMessage "Referral status updated successfully")) /\
  ((exists r, In r (rows (tbl c)) /\ id r = i) ->
   fst (patchReferral collate read_key now token b c) =
     mkResponse 200 (JMessage "Referral status updated successfully")) /\
  (primary_key (tbl c) -> n = 0 \/ n = 1) /\
  tbl c' =
    mkTable
      (List.map (fun r => if id r =? i then with_status now s r else r)
         (rows (tbl c)))
      (auto_increment (tbl c)) /\
  (n = 0 -> tbl c' = tbl c) /\
  (forall l1 r l2,
      rows (tbl c) = l1 ++ r :: l2 -> id r = i ->
      (forall x, In x (l1 ++ l2) -> id x <> i) ->
      rows (tbl c') = l1 ++ with_status now s r :: l2).
Proof.
  intros E Hs Ek n c'. subst c'.
  rewrite (patchReferral_key now token i b c Ek), Ek.
  destruct (updateReferralStatus_count collate now i b c s E Hs)
    as (H1 & H2 & H3 & H4 & H5 & H6).
  fold n in H1, H2, H3, H4, H6.
  assert (Ht : tbl (snd (updateReferralStatus collate now i b c)) =
               mkTable
                 (List.map
                    (fun r => if id r =? i then with_status now s r else r)
                    (rows (tbl c)))
                 (auto_increment (tbl c))).
  { rewrite (updateReferralStatus_valid_table collate now i b c s E Hs).
    f_equal. apply map_ext. intros r. unfold where_id.
    destruct (id r =? i); [apply set_status_with_status | reflexivity]. }
  split; [exact H1 | split; [exact H2 | split; [exact H3 | ] ] ].
  split; [exact H4 | split; [exact H5 | split; [exact H6 | ] ] ].
  split; [exact Ht | split].
  - intros Hn. rewrite Ht. destruct (tbl c) as [l k]. simpl in *. f_equal.
    rewrite <- (map_id l) at 2. apply map_ext_in. intros r Hr.
    rewrite (proj2 (Z.eqb_neq (id r) i)); [reflexivity | ].
    apply (proj1 H2 Hn). exact Hr.
  - intros l1 r l2 El Ei Hn. rewrite Ht. cbn [rows]. rewrite El, map_app.
    simpl. rewrite (proj2 (Z.eqb_eq (id r) i) Ei).
    assert (Hid : forall l, (forall x, In x l -> id x <> i) ->
                  List.map
                    (fun r0 => if id r0 =? i then with_status now s r0 else r0)
                    l = l).
    { intros l Hl. rewrite <- (map_id l) at 2. apply map_ext_in.
      intros x Hx. rewrite (proj2 (Z.eqb_neq (id x) i)); auto. }
    rewrite !Hid; [reflexivity | | ];
      intros x Hx; apply Hn, in_or_app; auto.
Qed.

(** X7.  The status handler's UPDATE is never refused on account of the
    status (the handler's list of literals is the column's
    enumeration): on a connected backend the answer is 500 only when the
    server does not read the path id as a number; and a 404 or a 500
    leaves the table exactly as it was. *)
Theorem update_not_found_changes_nothing now token (b : body) c :
  (code (fst (patchReferral collate read_key now token b c)) = 500 ->
   read_key token = Refused) /\
  (code (fst (patchReferral collate read_key now token b c)) = 404 ->
   tbl (snd (patchReferral collate read_key now token b c)) = tbl c) /\
  (code (fst (patchReferral collate read_key now token b c)) = 500 ->
   tbl (snd (patchReferral collate read_key now token b c)) = tbl c).
Proof.
  destruct (read_key token) as [i | | ] eqn:Ek.
  - rewrite (patchReferral_key now token i b c Ek).
    destruct (updateReferralStatus_not_found collate now i b c) as [H5 H4].
    split; [contradiction | split; [exact H4 | contradiction] ].
  - destruct (patchReferral_no_key now token b c Ek) as [[H | H] Ht];
      rewrite H; (split; [discriminate | split; intros _; exact Ht ]).
  - destruct (patchReferral_refused now token b c Ek) as [Hc Ht].
    split; [reflexivity | split; intros _; exact Ht ].
Qed.

End PathToken.

(** *** The path token on the sample requests *)

Lemma decimal_key_one : decimal_key (lit "1") = Key 1.
Proof. vm_compute. reflexivity. Qed.

Lemma decimal_key_large : decimal_key (lit "999999") = Key 999999.
Proof. vm_compute. reflexivity. Qed.

(** Scenario C and its converse: id 999999 is not found and the stored
    referral stays; id 1 is found and takes the status. *)
Lemma update_found_or_not_samples :
  status_body "enrolled" !! "status" = Some (lit "enrolled") /\
  status_literal (lit "enrolled") /\
  decimal_key (lit "999999") = Key 999999 /\
  decimal_key (lit "1") = Key 1 /\
  fst (patchReferral binary decimal_key 200 (lit "999999")
         (status_body "enrolled") one_referral) =
    mkResponse 404 (JError "Referral not found") /\
  tbl (snd (patchReferral binary decimal_key 200 (lit "999999")
              (status_body "enrolled") one_referral)) =
    tbl one_referral /\
  fst (patchReferral binary decimal_key 200 (lit "1")
         (status_body "enrolled") one_referral) =
    mkResponse 200 (JMessage "Referral status updated successfully") /\
  rows (tbl (snd (patchReferral binary decimal_key 200 (lit "1")
                    (status_body "enrolled") one_referral))) =
    [with_status 200 (lit "enrolled") (new_referral 1 100 sample_body)].
Proof.
  split; [exact status_body_enrolled | ].
  split; [exact enrolled_literal | ].
  split; [exact decimal_key_large | ].
  split; [exact decimal_key_one | ].
  destruct (update_found_or_not binary decimal_key 200 (lit "999999") 999999
              (status_body "enrolled") one_referral (lit "enrolled")
              status_body_enrolled enrolled_literal decimal_key_large)
    as (_ & _ & _ & H404 & _ & _ & _ & Hsame & _).
  destruct (update_found_or_not binary decimal_key 200 (lit "1") 1
              (status_body "enrolled") one_referral (lit "enrolled")
              status_body_enrolled enrolled_literal decimal_key_one)
    as (_ & _ & _ & H200 & _ & _ & _ & _ & Hrow).
  split; [exact H404 | ].
  split; [apply Hsame; reflexivity | ].
  split; [exact H200 | ].
  apply (Hrow [] (new_referral 1 100 sample_body) []);
    [reflexivity | reflexivity | intros x []].
Defined.

(** C5 as stated fails: with a valid status and the path id [abc], which
    is no number, no row matches, yet the answer is not 404: the UPDATE
    is refused and the answer is 500. *)
Lemma update_unreadable_id_refused :
  status_body "enrolled" !! "status" = Some (lit "enrolled") /\
  status_literal (lit "enrolled") /\
  decimal_key (lit "abc") = Refused /\
  fst (patchReferral binary decimal_key 200 (lit "abc")
         (status_body "enrolled") one_referral) =
    mkResponse 500 (JError "Failed to update referral status") /\
  tbl (snd (patchReferral binary decimal_key 200 (lit "abc")
              (status_body "enrolled") one_referral)) =
    tbl one_referral.
Proof.
  split; [exact status_body_enrolled | ].
  split; [exact enrolled_literal | ].
  repeat split; vm_compute; reflexivity.
Qed.

(** *** The listings on three referrals of one second *)

Lemma same_second_reachable : reachable binary same_second.
Proof.
  unfold same_second.
  eapply rtc_r; [eapply rtc_r; [apply rtc_once | ] | ];
    eexists 100, (PostReferral _); reflexivity.
Qed.

Lemma same_second_rows :
  rows (tbl same_second) = [row_one; row_two; row_three].
Proof. vm_compute. reflexivity. Qed.

Lemma one_second_desc l :
  Forall (fun r => created_at r = 100) l -> created_desc l.
Proof.
  intros H i j r1 r2 _ H1 H2. rewrite List.Forall_forall in H.
  rewrite (H r1), (H r2); [lia | | ];
    apply list_elem_of_In; eapply list_elem_of_lookup_2; eassumption.
Qed.

Lemma full_listing_sample :
  may_list_all same_second [row_one; row_two; row_three].
Proof.
  split.
  - rewrite same_second_rows. reflexivity.
  - apply one_second_desc. repeat constructor.
Qed.

Lemma referrer_listing_sample :
  may_list_by_referrer binary (lit "asha@example.com") same_second
    [row_three; row_one].
Proof.
  split.
  - rewrite same_second_rows.
    change (List.filter _ [row_one; row_two; row_three])
      with [row_one; row_three].
    apply perm_swap.
  - apply one_second_desc. repeat constructor.
Qed.

(** C7 as stated fails: on three referrals created within one second,
    two of them by one referrer, the full listing may come as 1, 2, 3
    and the listing by that referrer as 3, 1, which is not the full
    listing filtered (1, 3). *)
Lemma referrer_listing_ties_differ :
  reachable binary same_second /\
  may_list_all same_second [row_one; row_two; row_three] /\
  may_list_by_referrer binary (lit "asha@example.com") same_second
    [row_three; row_one] /\
  [row_three; row_one] <>
  List.filter (fun r => binary (referrer_email r) (lit "asha@example.com"))
    [row_one; row_two; row_three].
Proof.
  split; [exact same_second_reachable | ].
  split; [exact full_listing_sample | ].
  split; [exact referrer_listing_sample | ].
  change (List.filter _ [row_one; row_two; row_three])
    with [row_one; row_three].
  intros H. apply (f_equal (List.map id)) in H. vm_compute in H.
  discriminate H.
Qed.

(** On the same results, what the amended statement gives. *)
Lemma referrer_listing_against_full_listing_sample :
  may_list_all same_second [row_one; row_two; row_three] /\
  may_list_by_referrer binary (lit "asha@example.com") same_second
    [row_three; row_one] /\
  Permutation [row_three; row_one]
    (List.filter
       (fun r => binary (referrer_email r) (lit "asha@example.com"))
       [row_one; row_two; row_three]) /\
  created_desc [row_three; row_one].
Proof.
  split; [exact full_listing_sample | ].
  split; [exact referrer_listing_sample | ].
  destruct (referrer_listing_against_full_listing binary
              (lit "asha@example.com") same_second
              [row_one; row_two; row_three] [row_three; row_one]
              full_listing_sample referrer_listing_sample)
    as (H1 & H2 & _).
  split; [exact H1 | exact H2].
Defined.

(** On a raw token: a 500 comes of an unreadable id only, and leaves the
    table. *)
Example update_refused_leaves_table :
  code (fst (patchReferral binary decimal_key 200 (lit "abc")
               (status_body "enrolled") one_referral)) = 500 /\
  decimal_key (lit "abc") = Refused.
Proof. split; vm_compute; reflexivity. Qed.
